(** * LRU.js: a fixed-capacity LRU cache and its memoizing wrapper

    The JavaScript source keeps a doubly linked chain of [Node] objects
    (most-recently used first) next to a plain object used as a dictionary
    from keys to nodes.  Nodes are mutable and shared between the chain and
    the dictionary, so the embedding keeps an explicit heap of nodes
    addressed by locations and threads one store through every method.

    Conventions of the embedding:
    - a property key is the string the engine coerces it to;
    - the dictionary [this.cache] is a plain object: a lookup that finds no
      own property goes on to the prototype, which is [Object.prototype]
      until an assignment to the key [__proto__] replaces it by a node;
    - [None] stands for [null] and for [undefined] in [head], [tail],
      [next] and [prev]: the methods only compare these loosely with
      [null], test their truthiness, or read a property through them;
    - JavaScript numbers are integers here ([Z]);
    - a method either completes ([Ok]), throws a [TypeError] on a property
      access through [null], or does not return ([Diverge], a chain that
      loops); [Dangling] marks a location absent from the heap, which no
      JavaScript reference can be. *)

From stdpp Require Import gmap strings list fin_maps pretty.

Open Scope Z_scope.

(** ** Values *)

Inductive value : Type :=
  | VUndefined
  | VNull
  | VBool (b : bool)
  | VNum (n : Z)
  | VStr (s : string).

(** ToBoolean, as used by [if (x)] and [!x]. *)
Definition truthy (v : value) : bool :=
  match v with
  | VUndefined | VNull => false
  | VBool b => b
  | VNum n => negb (n =? 0)
  | VStr s => negb (String.eqb s "")
  end.

(** ** Heap of nodes and the store object *)

Definition loc := nat.

(** [class Node]: key, value, next (towards the tail), prev (towards the
    head); [None] is [null]. *)
Record Node : Type := mkNode {
  node_key : string;
  node_value : value;
  node_next : option loc;
  node_prev : option loc;
}.

(** [class LRU] together with the heap its nodes live in; [lru_fresh] is
    the location the next [new Node] receives.  [lru_cache] holds the own
    properties of [this.cache]; [lru_proto] is the node that has become the
    prototype of [this.cache], if any ([None]: [Object.prototype]). *)
Record LRU : Type := mkLRU {
  lru_heap : gmap loc Node;
  lru_fresh : loc;
  lru_size : Z;
  lru_limit : Z;
  lru_head : option loc;
  lru_tail : option loc;
  lru_cache : gmap string loc;
  lru_proto : option loc;
}.

Definition with_heap (f : gmap loc Node → gmap loc Node) (s : LRU) : LRU :=
  mkLRU (f (lru_heap s)) (lru_fresh s) (lru_size s) (lru_limit s)
        (lru_head s) (lru_tail s) (lru_cache s)
        (lru_proto s).
Definition with_size (f : Z → Z) (s : LRU) : LRU :=
  mkLRU (lru_heap s) (lru_fresh s) (f (lru_size s)) (lru_limit s)
        (lru_head s) (lru_tail s) (lru_cache s)
        (lru_proto s).
Definition with_head (h : option loc) (s : LRU) : LRU :=
  mkLRU (lru_heap s) (lru_fresh s) (lru_size s) (lru_limit s)
        h (lru_tail s) (lru_cache s)
        (lru_proto s).
Definition with_tail (t : option loc) (s : LRU) : LRU :=
  mkLRU (lru_heap s) (lru_fresh s) (lru_size s) (lru_limit s)
        (lru_head s) t (lru_cache s) (lru_proto s).
Definition with_cache (f : gmap string loc → gmap string loc) (s : LRU) : LRU :=
  mkLRU (lru_heap s) (lru_fresh s) (lru_size s) (lru_limit s)
        (lru_head s) (lru_tail s) (f (lru_cache s)) (lru_proto s).
Definition with_proto (p : option loc) (s : LRU) : LRU :=
  mkLRU (lru_heap s) (lru_fresh s) (lru_size s) (lru_limit s)
        (lru_head s) (lru_tail s) (lru_cache s) p.

Definition set_next (x : option loc) (n : Node) : Node :=
  mkNode (node_key n) (node_value n) x (node_prev n).
Definition set_prev (x : option loc) (n : Node) : Node :=
  mkNode (node_key n) (node_value n) (node_next n) x.

(** ** Outcomes and the method monad *)

Inductive outcome (A : Type) : Type :=
  | Ok (a : A)
  | TypeError
  | Diverge
  | Dangling.
Arguments Ok {A} a.
Arguments TypeError {A}.
Arguments Diverge {A}.
Arguments Dangling {A}.

Definition M (A : Type) : Type := LRU → outcome (A * LRU).

#[global] Instance M_ret : MRet M := λ A a s, Ok (a, s).
#[global] Instance M_bind : MBind M := λ A B k m s,
  match m s with
  | Ok (a, s') => k a s'
  | TypeError => TypeError
  | Diverge => Diverge
  | Dangling => Dangling
  end.
Definition throw {A} : M A := λ _, TypeError.
Definition gets {A} (f : LRU → A) : M A := λ s, Ok (f s, s).
Definition modify (f : LRU → LRU) : M unit := λ s, Ok (tt, f s).

(** Reading a field of the node at [l], and assigning to one. *)
Definition node_at (l : loc) : M Node :=
  fun s => match lru_heap s !! l with
           | Some n => Ok (n, s)
           | None => Dangling
           end.
Definition update_node (l : loc) (f : Node → Node) : M unit :=
  modify (with_heap (alter f l)).

(** [new Node(key, value, next)]: [prev] takes its default, [null]. *)
Definition new_Node (k : string) (v : value) (nx : option loc) : M loc :=
  fun s => Ok (lru_fresh s,
               mkLRU (<[lru_fresh s := mkNode k v nx None]> (lru_heap s))
                     (S (lru_fresh s)) (lru_size s) (lru_limit s)
                     (lru_head s) (lru_tail s) (lru_cache s) (lru_proto s)).

(** ** Lookups in the dictionary object

    What [this.cache[key]] evaluates to: a node, another object (a
    function or a prototype object of the runtime), or a primitive value
    ([undefined] when nothing is found). *)

Inductive entry : Type :=
  | ENode (l : loc)
  | EObject
  | EValue (v : value).

(** The property names of [Object.prototype] (ECMAScript with Annex B). *)
Definition Object_prototype_names : list string :=
  ["constructor"; "__defineGetter__"; "__defineSetter__"; "hasOwnProperty";
   "__lookupGetter__"; "__lookupSetter__"; "isPrototypeOf";
   "propertyIsEnumerable"; "toString"; "valueOf"; "__proto__";
   "toLocaleString"].

Definition inherited (k : string) : bool :=
  bool_decide (k ∈ Object_prototype_names).

(** A lookup in a node that serves as prototype: its four fields, then
    [Node.prototype] (only [constructor]) and [Object.prototype], whose
    accessor [__proto__] returns the prototype of the dictionary. *)
Definition proto_get (k : string) (p : loc) (n : Node) : entry :=
  if decide (k = "key") then EValue (VStr (node_key n))
  else if decide (k = "value") then EValue (node_value n)
  else if decide (k = "next") then from_option ENode (EValue VNull) (node_next n)
  else if decide (k = "prev") then from_option ENode (EValue VNull) (node_prev n)
  else if decide (k = "__proto__") then ENode p
  else if inherited k then EObject
  else EValue VUndefined.

(** [this.cache[key]]: own properties first, then the prototype. *)
Definition cache_get (k : string) : M entry :=
  λ s, match lru_cache s !! k with
       | Some l => Ok (ENode l, s)
       | None =>
           match lru_proto s with
           | None =>
               Ok (if inherited k then EObject else EValue VUndefined, s)
           | Some p =>
               match lru_heap s !! p with
               | Some n => Ok (proto_get k p n, s)
               | None => Dangling
               end
           end
       end.

(** [this.cache[key] = node]: the setter of [__proto__] replaces the
    prototype; every other key becomes an own property. *)
Definition cache_set (k : string) (node : loc) : M unit :=
  if decide (k = "__proto__") then modify (with_proto (Some node))
  else modify (with_cache (insert k node)).

(** [x != null]. *)
Definition not_null (e : entry) : bool :=
  match e with
  | EValue VNull | EValue VUndefined => false
  | _ => true
  end.

(** ToBoolean of a lookup result: objects are truthy. *)
Definition entry_truthy (e : entry) : bool :=
  match e with
  | EValue v => truthy v
  | _ => true
  end.

(** [x.next], [x.prev], [x.value]: fields of a node; [undefined] on any
    other object and on a primitive; a [TypeError] on [null] and
    [undefined]. *)
Definition entry_next (e : entry) : M (option loc) :=
  match e with
  | ENode l => n ← node_at l; mret (node_next n)
  | EObject => mret None
  | EValue VNull | EValue VUndefined => throw
  | EValue _ => mret None
  end.

Definition entry_prev (e : entry) : M (option loc) :=
  match e with
  | ENode l => n ← node_at l; mret (node_prev n)
  | EObject => mret None
  | EValue VNull | EValue VUndefined => throw
  | EValue _ => mret None
  end.

Definition entry_value (e : entry) : M value :=
  match e with
  | ENode l => n ← node_at l; mret (node_value n)
  | EObject => mret VUndefined
  | EValue VNull | EValue VUndefined => throw
  | EValue _ => mret VUndefined
  end.

(** ** The methods of [class LRU] *)

(** [constructor(limit = 3)]: an omitted argument takes the default. *)
Definition constructor (limit : option Z) : outcome LRU :=
  Ok (mkLRU ∅ 0%nat 0 (default 3 limit) None None ∅ None).

(** [remove(key)].  Each [node.next] and [node.prev] is read at the point
    where the source reads it; [delete] removes an own property only. *)
Definition remove (k : string) : M unit :=
  node ← cache_get k;
  if not_null node then
    nx ← entry_next node;
    (match nx with
     | Some x => pv ← entry_prev node; update_node x (set_prev pv)
     | None => pv ← entry_prev node; modify (with_tail pv)
     end);;
    pv ← entry_prev node;
    (match pv with
     | Some p => nx ← entry_next node; update_node p (set_next nx)
     | None => nx ← entry_next node; modify (with_head nx)
     end);;
    modify (with_cache (delete k));;
    modify (with_size Z.pred)
  else mret tt.

(** [enforceLimit()]: [this.tail.key] throws when [this.tail] is [null]. *)
Definition enforceLimit : M unit :=
  lim ← gets lru_limit;
  sz ← gets lru_size;
  if decide (lim = sz) then
    t ← gets lru_tail;
    match t with
    | None => throw
    | Some tl => n ← node_at tl; remove (node_key n)
    end
  else mret tt.

(** [add(key, value)]. *)
Definition add (k : string) (v : value) : M unit :=
  enforceLimit;;
  h ← gets lru_head;
  (match h with
   | None =>
       node ← new_Node k v None;
       modify (with_tail (Some node));;
       modify (with_head (Some node))
   | Some hd =>
       node ← new_Node k v (Some hd);
       update_node hd (set_prev (Some node));;
       modify (with_head (Some node))
   end);;
  h' ← gets lru_head;
  (match h' with
   | Some hd => cache_set k hd
   | None => fun _ => Dangling
   end);;
  modify (with_size Z.succ).

(** [read(key)]: the test is on what the dictionary lookup yields; the
    result is the [value] field of that object, or [null]. *)
Definition read (k : string) : M value :=
  found ← cache_get k;
  if entry_truthy found then
    node ← cache_get k;
    value ← entry_value node;
    remove k;;
    add k value;;
    mret value
  else mret VNull.

(** The [while (node != null)] loop of [contentsArray]; a chain inside a
    heap of [fuel] nodes that has not ended after [fuel] steps is cyclic. *)
Fixpoint contents_loop (fuel : nat) (node : option loc) (valueList : list value)
  : M (list value) :=
  match node with
  | None => mret valueList
  | Some l =>
      match fuel with
      | O => fun _ => Diverge
      | S fuel' =>
          n ← node_at l;
          contents_loop fuel' (node_next n) (valueList ++ [node_value n])
      end
  end.

(** [contentsArray()]: [this.head.value] throws when [this.head] is [null]. *)
Definition contentsArray : M (list value) :=
  h ← gets lru_head;
  match h with
  | None => throw
  | Some hd =>
      n ← node_at hd;
      hp ← gets lru_heap;
      contents_loop (size hp) (node_next n) [node_value n]
  end.

(** ** The memoizing wrapper *)

(** [JSON.stringify] of an argument array, for the values of this model:
    elements separated by commas inside brackets, [undefined] printed as
    [null], strings between quotation marks.  Escapes are not modelled,
    so the printing is exact for strings without quotation marks,
    backslashes and control characters. *)
Definition quote : string := String (Ascii.ascii_of_nat 34) EmptyString.

Definition JSON_value (v : value) : string :=
  match v with
  | VUndefined | VNull => "null"
  | VBool true => "true"
  | VBool false => "false"
  | VNum n => pretty n
  | VStr s => quote +:+ s +:+ quote
  end.

Fixpoint JSON_elements (vs : list value) : string :=
  match vs with
  | [] => ""
  | [v] => JSON_value v
  | v :: rest => JSON_value v +:+ "," +:+ JSON_elements rest
  end.

Definition JSON_stringify (argsList : list value) : string :=
  "[" +:+ JSON_elements argsList +:+ "]".

(** The closure returned by [memoizedLRU(otherFunc)]: its private store
    [memo], plus a counter of the invocations of [otherFunc] (the external
    call counter an observer would keep). *)
Record memoized : Type := mkMemoized {
  memo : LRU;
  calls : nat;
}.

Section Memoized.
Variable stringify : list value → string.
Variable otherFunc : list value → value.

(** [const memo = new LRU(3)]. *)
Definition memoizedLRU : outcome memoized :=
  match constructor (Some 3) with
  | Ok m => Ok (mkMemoized m 0)
  | TypeError => TypeError
  | Diverge => Diverge
  | Dangling => Dangling
  end.

(** One call of the returned function on the argument list [argsList]. *)
Definition memoized_call (argsList : list value) (st : memoized)
  : outcome (value * memoized) :=
  let key := stringify argsList in
  match read key (memo st) with
  | Ok (itemExists, m1) =>
      if negb (truthy itemExists) then
        let value := otherFunc argsList in
        match add key value m1 with
        | Ok (_, m2) => Ok (value, mkMemoized m2 (S (calls st)))
        | TypeError => TypeError
        | Diverge => Diverge
        | Dangling => Dangling
        end
      else Ok (itemExists, mkMemoized m1 (calls st))
  | TypeError => TypeError
  | Diverge => Diverge
  | Dangling => Dangling
  end.
End Memoized.

(** ** Sequences of operations on one store *)

Inductive op : Type :=
  | Put (k : string) (v : value)
  | Get (k : string)
  | Remove (k : string).

Definition step (o : op) : M unit :=
  match o with
  | Put k v => add k v
  | Get k => read k;; mret tt
  | Remove k => remove k
  end.

Fixpoint run (ops : list op) : M unit :=
  match ops with
  | [] => mret tt
  | o :: rest => step o;; run rest
  end.

(** The store after [ops], starting from [new LRU(limit)]. *)
Definition run_from (limit : option Z) (ops : list op) : outcome LRU :=
  match constructor limit with
  | Ok s0 =>
      match run ops s0 with
      | Ok (_, s) => Ok s
      | TypeError => TypeError
      | Diverge => Diverge
      | Dangling => Dangling
      end
  | TypeError => TypeError
  | Diverge => Diverge
  | Dangling => Dangling
  end.

Definition reachable (s : LRU) : Prop :=
  ∃ limit ops, run_from limit ops = Ok s.

(** Operations whose keys do not name a member of [Object.prototype], and
    the stores reached by such operations only. *)
Definition op_key (o : op) : string :=
  match o with
  | Put k _ | Get k | Remove k => k
  end.

Definition plain_ops (ops : list op) : bool :=
  forallb (λ o, negb (inherited (op_key o))) ops.

Definition plain_reachable (s : LRU) : Prop :=
  ∃ limit ops, plain_ops ops = true ∧ run_from limit ops = Ok s.

(** Walking the chain from a node along [next]: the nodes met, in order. *)
Fixpoint walk (fuel : nat) (h : gmap loc Node) (node : option loc) : list Node :=
  match node, fuel with
  | Some l, S fuel' =>
      match h !! l with
      | Some n => n :: walk fuel' h (node_next n)
      | None => []
      end
  | _, _ => []
  end.

Definition chain (s : LRU) : list Node :=
  walk (size (lru_heap s)) (lru_heap s) (lru_head s).
Definition chain_keys (s : LRU) : list string := node_key <$> chain s.

(** ** The representation invariant

    An [item] is one node of the chain: its location, key and value.  The
    predicate [seg h p its e] says that in heap [h] the nodes of [its] are
    linked in this order, the first one having [prev = p] and the last one
    [next = e]. *)

Definition item : Type := loc * string * value.

Definition item_loc (it : item) : loc := it.1.1.
Definition item_key (it : item) : string := it.1.2.
Definition item_value (it : item) : value := it.2.

Definition first_loc (its : list item) (e : option loc) : option loc :=
  match its with
  | [] => e
  | it :: _ => Some (item_loc it)
  end.

Definition last_loc (its : list item) (p : option loc) : option loc :=
  match last its with
  | Some it => Some (item_loc it)
  | None => p
  end.

Fixpoint seg (h : gmap loc Node) (p : option loc) (its : list item)
    (e : option loc) : Prop :=
  match its with
  | [] => True
  | it :: rest =>
      h !! item_loc it
        = Some (mkNode (item_key it) (item_value it) (first_loc rest e) p)
      ∧ seg h (Some (item_loc it)) rest e
  end.

(** Every state reached by operations on keys that are not inherited
    satisfies [Inv] for some list of items; a chain node need not be
    registered in the dictionary. *)
Record Inv (s : LRU) (its : list item) : Prop := mkInv {
  inv_seg : seg (lru_heap s) None its None;
  inv_nodup : NoDup (item_loc <$> its);
  inv_head : lru_head s = first_loc its None;
  inv_tail : lru_tail s = last_loc its None;
  inv_size : lru_size s = Z.of_nat (length its);
  inv_cache : ∀ k l, lru_cache s !! k = Some l →
              ∃ v, (l, k, v) ∈ its;
  inv_fresh : ∀ l, is_Some (lru_heap s !! l) → (l < lru_fresh s)%nat;
  inv_limit : its ≠ [] → lru_limit s ≠ 0;
  inv_proto : lru_proto s = None;
  inv_keys : ∀ it, it ∈ its → inherited (item_key it) = false;
}.

(** The invariant of the data model: over [Inv], every chain node is the
    dictionary entry of its key, and the count is within the capacity. *)
Record SInv (s : LRU) (its : list item) : Prop := mkSInv {
  sinv_inv : Inv s its;
  sinv_indexed : ∀ it, it ∈ its → lru_cache s !! item_key it = Some (item_loc it);
  sinv_bound : Z.of_nat (length its) ≤ lru_limit s;
}.

(** The values and the key-value pairs along a list of items, and the
    operation list that puts the given pairs in order. *)
Definition values (its : list item) : list value := item_value <$> its.

Definition entries (its : list item) : list (string * value) :=
  (λ it, (item_key it, item_value it)) <$> its.

Definition puts (kvs : list (string * value)) : list op :=
  (λ kv, Put kv.1 kv.2) <$> kvs.

(** The node records a segment stands for. *)
Fixpoint nodes_of (p : option loc) (its : list item) (e : option loc)
  : list Node :=
  match its with
  | [] => []
  | it :: rest =>
      mkNode (item_key it) (item_value it) (first_loc rest e) p
      :: nodes_of (Some (item_loc it)) rest e
  end.

(** Walking the chain from a node along [prev]: the nodes met, in order. *)
Fixpoint walk_back (fuel : nat) (h : gmap loc Node) (node : option loc)
  : list Node :=
  match node, fuel with
  | Some l, S fuel' =>
      match h !! l with
      | Some n => n :: walk_back fuel' h (node_prev n)
      | None => []
      end
  | _, _ => []
  end.

Definition chain_back (s : LRU) : list Node :=
  walk_back (size (lru_heap s)) (lru_heap s) (lru_tail s).

(** Use of the store in which every put is of a key that is not present
    at that moment (the check the comment in [add] leaves to the caller),
    with keys that are not inherited, on a store constructed with a
    positive limit. *)
Definition put_absent (o : op) (s : LRU) : bool :=
  match o with
  | Put k _ => bool_decide (lru_cache s !! k = None)
  | _ => true
  end.

Fixpoint puts_absent (ops : list op) (s : LRU) : bool :=
  match ops with
  | [] => true
  | o :: rest =>
      put_absent o s
      && match step o s with
         | Ok (_, s') => puts_absent rest s'
         | _ => false
         end
  end.

Definition tidy (s : LRU) : Prop :=
  ∃ limit ops s0,
    0 < default 3 limit
    ∧ plain_ops ops = true
    ∧ constructor limit = Ok s0
    ∧ puts_absent ops s0 = true
    ∧ run ops s0 = Ok (tt, s).

(** Successive calls of one memoized function, starting from the closure
    [memoizedLRU] returns. *)
Fixpoint memoized_calls (stringify : list value → string)
    (otherFunc : list value → value) (argss : list (list value))
    (st : memoized) : outcome memoized :=
  match argss with
  | [] => Ok st
  | argsList :: rest =>
      match memoized_call stringify otherFunc argsList st with
      | Ok (_, st') => memoized_calls stringify otherFunc rest st'
      | TypeError => TypeError
      | Diverge => Diverge
      | Dangling => Dangling
      end
  end.

Definition memo_reachable (stringify : list value → string)
    (otherFunc : list value → value) (st : memoized) : Prop :=
  ∃ argss st0, memoizedLRU = Ok st0
               ∧ memoized_calls stringify otherFunc argss st0 = Ok st.

(** Every item holds, under its key, the result of the function on an
    argument list with that key. *)
Definition computed_by (stringify : list value → string)
    (otherFunc : list value → value) (its : list item) : Prop :=
  ∀ it, it ∈ its →
    ∃ a, stringify a = item_key it ∧ otherFunc a = item_value it.

(** Unfolding of the monad and of the field accessors. *)
Ltac exec :=
  unfold mbind, M_bind, mret, M_ret, gets, modify, update_node, node_at,
    new_Node, throw, cache_set, entry_next, entry_prev, entry_value; simpl.

(** ** Lemmas on segments *)

Lemma last_loc_snoc (a : list item) (it : item) (p : option loc) :
  last_loc (a ++ [it]) p = Some (item_loc it).
Proof. unfold last_loc. by rewrite last_snoc. Qed.

Lemma last_loc_cons (it : item) (a : list item) (p : option loc) :
  last_loc (it :: a) p = last_loc a (Some (item_loc it)).
Proof.
  unfold last_loc. destruct a as [|x a]; [reflexivity|].
  rewrite last_cons_cons. destruct (last (x :: a)) eqn:E; [done|].
  by apply last_None in E.
Qed.

Lemma last_loc_app (a b : list item) (p : option loc) :
  last_loc (a ++ b) p = last_loc b (last_loc a p).
Proof.
  revert p. induction a as [|it a IH]; intros p; simpl; [done|].
  rewrite !last_loc_cons. apply IH.
Qed.

Lemma first_loc_app (a b : list item) (e : option loc) :
  first_loc (a ++ b) e = first_loc a (first_loc b e).
Proof. by destruct a. Qed.

Lemma seg_app h p a b e :
  seg h p (a ++ b) e ↔ seg h p a (first_loc b e) ∧ seg h (last_loc a p) b e.
Proof.
  revert p. induction a as [|it a IH]; intros p; simpl.
  - unfold last_loc; simpl. tauto.
  - rewrite IH, first_loc_app, last_loc_cons. tauto.
Qed.

Lemma seg_in_heap h p its e it :
  seg h p its e → it ∈ its → is_Some (h !! item_loc it).
Proof.
  revert p. induction its as [|x its IH]; intros p Hs Hin.
  - by apply elem_of_nil in Hin.
  - destruct Hs as [Hx Hs]. apply elem_of_cons in Hin as [->|Hin]; eauto.
Qed.

Lemma seg_lookup h p its e l k v :
  seg h p its e → (l, k, v) ∈ its →
  ∃ n, h !! l = Some n ∧ node_key n = k ∧ node_value n = v.
Proof.
  revert p. induction its as [|x its IH]; intros p Hs Hin.
  - by apply elem_of_nil in Hin.
  - destruct Hs as [Hx Hs]. apply elem_of_cons in Hin as [<-|Hin]; eauto.
Qed.

(** Frame: writing a node outside the segment leaves the segment alone. *)
Lemma seg_alter_frame h p its e l f :
  l ∉ item_loc <$> its → seg h p its e → seg (alter f l h) p its e.
Proof.
  revert p. induction its as [|x its IH]; intros p Hl Hs; [done|].
  destruct Hs as [Hx Hs]. rewrite fmap_cons in Hl.
  apply not_elem_of_cons in Hl as [Hne Hl]. split; [|by apply IH].
  by rewrite lookup_alter_ne.
Qed.

Lemma seg_insert_frame h p its e l n :
  l ∉ item_loc <$> its → seg h p its e → seg (<[l:=n]> h) p its e.
Proof.
  revert p. induction its as [|x its IH]; intros p Hl Hs; [done|].
  destruct Hs as [Hx Hs]. rewrite fmap_cons in Hl.
  apply not_elem_of_cons in Hl as [Hne Hl]. split; [|by apply IH].
  by rewrite lookup_insert_ne.
Qed.

(** [first.prev = q] on the first node of a segment. *)
Lemma seg_set_prev h p it rest e q :
  item_loc it ∉ item_loc <$> rest →
  seg h p (it :: rest) e →
  seg (alter (set_prev q) (item_loc it) h) q (it :: rest) e.
Proof.
  intros Hl [Hx Hs]. split.
  - by rewrite lookup_alter_eq, Hx.
  - by apply seg_alter_frame.
Qed.

(** [last.next = e'] on the last node of a segment. *)
Lemma seg_set_next h p a it e e' :
  item_loc it ∉ item_loc <$> a →
  seg h p (a ++ [it]) e →
  seg (alter (set_next e') (item_loc it) h) p (a ++ [it]) e'.
Proof.
  intros Hl. rewrite !seg_app. simpl. intros [Ha [Hx _]]. split_and!; [|by rewrite lookup_alter_eq, Hx|done].
  by apply seg_alter_frame.
Qed.

Lemma seg_length_heap h p its e :
  NoDup (item_loc <$> its) → seg h p its e → (length its ≤ size h)%nat.
Proof.
  intros Hnd Hs.
  assert (item_loc <$> its ⊆+ elements (dom h)) as Hsub.
  { apply NoDup_submseteq; [done|]. intros l Hl.
    apply list_elem_of_fmap in Hl as [it [-> Hit]].
    apply elem_of_elements, elem_of_dom. by eapply seg_in_heap. }
  apply submseteq_length in Hsub.
  rewrite length_fmap in Hsub.
  by rewrite <- size_dom.
Qed.

(** ** The methods on states that satisfy the invariant *)

Lemma Inv_split s its k l :
  Inv s its → lru_cache s !! k = Some l →
  ∃ a v b, its = a ++ (l, k, v) :: b.
Proof.
  intros HI Hc. destruct (inv_cache _ _ HI _ _ Hc) as [v Hin].
  apply list_elem_of_split in Hin as (a & b & ->). eauto.
Qed.

Lemma cache_get_own s k l :
  lru_cache s !! k = Some l → cache_get k s = Ok (ENode l, s).
Proof. intros Hc. unfold cache_get. by rewrite Hc. Qed.

Lemma cache_get_absent s k :
  lru_proto s = None → inherited k = false → lru_cache s !! k = None →
  cache_get k s = Ok (EValue VUndefined, s).
Proof. intros Hp Hk Hc. unfold cache_get. by rewrite Hc, Hp, Hk. Qed.

Lemma remove_absent s k :
  lru_proto s = None → inherited k = false → lru_cache s !! k = None →
  remove k s = Ok (tt, s).
Proof.
  intros Hp Hk Hc. unfold remove. exec. by rewrite cache_get_absent.
Qed.

Lemma Inv_unlink s a it b h' hd' tl' :
  Inv s (a ++ it :: b) →
  lru_cache s !! item_key it = Some (item_loc it) →
  seg h' None (a ++ b) None →
  (∀ l, is_Some (h' !! l) → is_Some (lru_heap s !! l)) →
  hd' = first_loc (a ++ b) None →
  tl' = last_loc (a ++ b) None →
  Inv (mkLRU h' (lru_fresh s) (Z.pred (lru_size s)) (lru_limit s) hd' tl'
             (delete (item_key it) (lru_cache s)) (lru_proto s)) (a ++ b).
Proof.
  intros [Hseg Hnd Hhd Htl Hsz Hca Hfr Hlim Hpr Hks] Hc Hseg' Hdom -> ->.
  rewrite fmap_app, fmap_cons in Hnd.
  pose proof Hnd as Hnd0.
  apply NoDup_app in Hnd as (Hnda & Hdisj & Hndb).
  apply NoDup_cons in Hndb as [Hlb Hndb].
  split; simpl; try done.
  - rewrite fmap_app. apply NoDup_app. split_and!; [done| |done].
    intros x Hx Hx'. apply (Hdisj x Hx). by right.
  - rewrite Hsz, !length_app. simpl. lia.
  - intros k0 l0 Hk0. apply lookup_delete_Some in Hk0 as [Hne Hk0].
    destruct (Hca _ _ Hk0) as [v0 Hin]. exists v0.
    rewrite elem_of_app, elem_of_cons in Hin. rewrite elem_of_app.
    destruct Hin as [?|[Heq|?]]; [by left| |by right].
    subst it. by destruct Hne.
  - intros l0 Hl0. by apply Hfr, Hdom.
  - intros _. apply Hlim. by destruct a.
  - intros x Hx. apply Hks. apply elem_of_app in Hx as [?|?];
      apply elem_of_app; [by left|right; by right].
Qed.

Lemma remove_spec s a l k v b :
  Inv s (a ++ (l, k, v) :: b) → lru_cache s !! k = Some l →
  ∃ s', remove k s = Ok (tt, s') ∧ Inv s' (a ++ b)
        ∧ lru_cache s' = delete k (lru_cache s)
        ∧ lru_limit s' = lru_limit s ∧ lru_fresh s' = lru_fresh s.
Proof.
  intros HI Hc. pose proof HI as [Hseg Hnd Hhd Htl _ _ _ _ _ _].
  apply seg_app in Hseg as [Ha [Hl Hb]]. simpl in Hl.
  rewrite fmap_app, fmap_cons in Hnd.
  apply NoDup_app in Hnd as (Hnda & Hdisj & Hndb).
  apply NoDup_cons in Hndb as [Hlb Hndb].
  unfold item_loc, item_key, item_value in Hl; simpl in Hl.
  unfold remove. exec. rewrite (cache_get_own _ _ _ Hc). exec.
  rewrite Hl. simpl.
  destruct b as [|itb b]; destruct a as [|ita a _] using rev_ind; simpl.
  - repeat (exec; rewrite ?Hl).
    eexists. split; [reflexivity|]. split; [|done].
    by apply (Inv_unlink s [] (l, k, v) []).
  - rewrite ?last_loc_snoc. repeat (exec; rewrite ?Hl, ?last_loc_snoc).
    eexists. split; [reflexivity|]. split; [|done].
    rewrite fmap_app in Hnda. apply NoDup_app in Hnda as (_ & Hita & _).
    apply (Inv_unlink s (a ++ [ita]) (l, k, v) []); try done.
    + rewrite app_nil_r. eapply seg_set_next; [|done].
      intros Hin. apply (Hita _ Hin). by left.
    + intros l0. simpl. by rewrite lookup_alter_is_Some.
    + simpl. rewrite Hhd. by destruct a.
    + by rewrite app_nil_r, last_loc_snoc.
  - apply not_elem_of_cons in Hlb as [Hne Hlb].
    repeat (exec; rewrite ?lookup_alter_ne by done; rewrite ?Hl).
    eexists. split; [reflexivity|]. split; [|done].
    apply NoDup_cons in Hndb as [Hitb _].
    apply (Inv_unlink s [] (l, k, v) (itb :: b)); try done.
    + eapply seg_set_prev; [exact Hitb|exact Hb].
    + intros l0. simpl. by rewrite lookup_alter_is_Some.
  - apply not_elem_of_cons in Hlb as [Hne Hlb].
    rewrite ?last_loc_snoc.
    repeat (exec; rewrite ?lookup_alter_ne by done; rewrite ?Hl, ?last_loc_snoc).
    eexists. split; [reflexivity|]. split; [|done].
    pose proof Hnda as Hnda'.
    rewrite fmap_app in Hnda'. apply NoDup_app in Hnda' as (_ & Hita & _).
    pose proof Hndb as Hndb'.
    apply NoDup_cons in Hndb' as [Hitb _].
    assert (item_loc itb ∉ item_loc <$> a ++ [ita]) as Hba.
    { intros Hin. apply (Hdisj _ Hin). right. by left. }
    assert (item_loc ita ∉ item_loc <$> itb :: b) as Hab.
    { intros Hin. apply (Hdisj (item_loc ita)).
      - rewrite fmap_app. apply elem_of_app. right. by left.
      - by right. }
    apply (Inv_unlink s (a ++ [ita]) (l, k, v) (itb :: b)); try done.
    + apply seg_app. split.
      * eapply seg_set_next.
        { intros Hin. apply (Hita _ Hin). by left. }
        apply seg_alter_frame; [done|]. exact Ha.
      * rewrite last_loc_snoc. apply seg_alter_frame; [done|].
        eapply seg_set_prev; [exact Hitb|exact Hb].
    + intros l0. simpl. by rewrite !lookup_alter_is_Some.
    + simpl. rewrite Hhd. by destruct a.
    + simpl. rewrite Htl. rewrite !last_loc_app. simpl. by rewrite !last_loc_cons.
Qed.
Lemma enforceLimit_skip s :
  lru_limit s ≠ lru_size s → enforceLimit s = Ok (tt, s).
Proof. intros Hne. unfold enforceLimit. exec. by rewrite decide_False. Qed.

Lemma Inv_fresh_notin s its :
  Inv s its → lru_fresh s ∉ item_loc <$> its.
Proof.
  intros HI Hin. apply list_elem_of_fmap in Hin as [it [Heq Hit]].
  pose proof (seg_in_heap _ _ _ _ _ (inv_seg _ _ HI) Hit) as Hs.
  apply (inv_fresh _ _ HI) in Hs. lia.
Qed.

Lemma inherited_not_proto k : inherited k = false → k ≠ "__proto__".
Proof. by intros Hk ->. Qed.

Lemma add_after s s1 its k v :
  inherited k = false →
  enforceLimit s = Ok (tt, s1) → Inv s1 its → lru_limit s1 ≠ 0 →
  ∃ s', add k v s = Ok (tt, s')
        ∧ Inv s' ((lru_fresh s1, k, v) :: its)
        ∧ lru_cache s' = <[k := lru_fresh s1]> (lru_cache s1)
        ∧ lru_limit s' = lru_limit s1
        ∧ lru_fresh s' = S (lru_fresh s1).
Proof.
  intros Hk Henf HI Hlim0. pose proof (Inv_fresh_notin _ _ HI) as Hnew.
  pose proof (inherited_not_proto _ Hk) as Hkp.
  destruct HI as [Hseg Hnd Hhd Htl Hsz Hca Hfr Hlim Hpr Hks].
  unfold add. exec. rewrite Henf. simpl. rewrite Hhd.
  destruct its as [|it its]; simpl; rewrite decide_False by done; simpl.
  - eexists. split; [reflexivity|]. split; [|done].
    split; simpl; try done.
    + split; [|done]. by rewrite lookup_insert_eq.
    + apply NoDup_singleton.
    + rewrite Hsz. simpl. lia.
    + intros k0 l0 Hk0. apply lookup_insert_Some in Hk0 as [[<- <-]|[_ Hk0]].
      * exists v. by left.
      * destruct (Hca _ _ Hk0) as [? Hin]. by apply elem_of_nil in Hin.
    + intros l0 Hl0. apply lookup_insert_is_Some in Hl0 as [<-|[_ Hl0]]; [lia|].
      apply Hfr in Hl0. lia.
    + intros x Hx. apply list_elem_of_singleton in Hx as ->. exact Hk.
  - eexists. split; [reflexivity|]. split; [|done].
    rewrite fmap_cons in Hnew. apply not_elem_of_cons in Hnew as [Hne Hnew].
    pose proof Hnd as Hnd'. rewrite fmap_cons in Hnd'.
    apply NoDup_cons in Hnd' as [Hit Hnd'].
    split; simpl; try done.
    + split.
      * rewrite lookup_alter_ne by done. by rewrite lookup_insert_eq.
      * eapply (seg_set_prev _ _ it its); [exact Hit|].
        apply seg_insert_frame; [|exact Hseg].
        apply not_elem_of_cons; done.
    + apply NoDup_cons. split; [|done].
      apply not_elem_of_cons; done.
    + rewrite Hsz. simpl length. lia.
    + intros k0 l0 Hk0. apply lookup_insert_Some in Hk0 as [[<- <-]|[_ Hk0]].
      * exists v. by left.
      * destruct (Hca _ _ Hk0) as [v0 Hin]. exists v0. by right.
    + intros l0 Hl0. apply lookup_alter_is_Some in Hl0.
      apply lookup_insert_is_Some in Hl0 as [<-|[_ Hl0]]; [lia|].
      apply Hfr in Hl0. lia.
    + intros x Hx. apply elem_of_cons in Hx as [->|Hx]; [exact Hk|by apply Hks].
Qed.

Lemma Inv_tail_item s its it :
  Inv s (its ++ [it]) →
  lru_tail s = Some (item_loc it)
  ∧ ∃ n, lru_heap s !! item_loc it = Some n ∧ node_key n = item_key it.
Proof.
  intros HI. split.
  - by rewrite (inv_tail _ _ HI), last_loc_snoc.
  - pose proof (inv_seg _ _ HI) as Hs. apply seg_app in Hs as [_ [Hn _]]. eauto.
Qed.

(** [enforceLimit] keeps [Inv]: it unlinks at most one node. *)
Lemma enforceLimit_Inv s its :
  Inv s its → lru_limit s ≠ 0 →
  ∃ s' its', enforceLimit s = Ok (tt, s') ∧ Inv s' its'
             ∧ lru_limit s' = lru_limit s ∧ lru_fresh s' = lru_fresh s.
Proof.
  intros HI Hlim0.
  destruct (decide (lru_limit s = lru_size s)) as [Heq|Hne];
    [|exists s, its; by rewrite enforceLimit_skip].
  destruct its as [|it its _] using rev_ind.
  { rewrite (inv_size _ _ HI) in Heq. simpl in Heq. lia. }
  destruct (Inv_tail_item _ _ _ HI) as [Htl (n & Hn & Hk)].
  unfold enforceLimit. exec. rewrite decide_True by done.
  rewrite Htl, Hn, Hk.
  destruct (lru_cache s !! item_key it) as [l|] eqn:Hc.
  - destruct (Inv_split _ _ _ _ HI Hc) as (a & v & b & Hsplit).
    rewrite Hsplit in HI.
    destruct (remove_spec _ _ _ _ _ _ HI Hc) as (s' & -> & HI' & _ & ? & ?).
    by exists s', (a ++ b).
  - rewrite remove_absent; [by exists s, (its ++ [it])|apply (inv_proto _ _ HI)| |done].
    apply (inv_keys _ _ HI), elem_of_app. right. by left.
Qed.

(** [add] on any state satisfying [Inv]: the new node is the head. *)
Lemma add_Inv s its k v :
  inherited k = false → Inv s its → lru_limit s ≠ 0 →
  ∃ s' its', add k v s = Ok (tt, s')
             ∧ Inv s' ((lru_fresh s, k, v) :: its')
             ∧ lru_cache s' !! k = Some (lru_fresh s)
             ∧ lru_limit s' = lru_limit s.
Proof.
  intros Hk HI Hlim0.
  destruct (enforceLimit_Inv _ _ HI Hlim0) as (s1 & its1 & Henf & HI1 & Hl1 & Hf1).
  destruct (add_after s s1 its1 k v Hk Henf HI1) as (s' & Hadd & HI' & Hc' & Hl' & _);
    [congruence|].
  exists s', its1. rewrite <- Hf1. split_and!; [done|done| |congruence].
  by rewrite Hc', lookup_insert_eq.
Qed.

Lemma contents_loop_seg s p its fuel acc :
  seg (lru_heap s) p its None → (length its ≤ fuel)%nat →
  contents_loop fuel (first_loc its None) acc s = Ok (acc ++ values its, s).
Proof.
  revert p fuel acc. induction its as [|it its IH]; intros p fuel acc Hs Hf; simpl.
  - unfold values. simpl. rewrite app_nil_r. by destruct fuel.
  - destruct Hs as [Hit Hs]. destruct fuel as [|fuel]; simpl in Hf; [lia|].
    simpl. exec. rewrite Hit. simpl.
    rewrite (IH (Some (item_loc it))); [|done|lia].
    unfold values. simpl. by rewrite <- app_assoc.
Qed.

(** [contentsArray] on a non-empty chain: the values from head to tail,
    and the same store. *)
Lemma contentsArray_Inv s it its :
  Inv s (it :: its) → contentsArray s = Ok (values (it :: its), s).
Proof.
  intros HI. pose proof (inv_seg _ _ HI) as [Hit Hs].
  pose proof (seg_length_heap _ _ _ _ (inv_nodup _ _ HI) (inv_seg _ _ HI)) as Hlen.
  unfold contentsArray. exec. rewrite (inv_head _ _ HI). simpl. rewrite Hit. simpl.
  rewrite (contents_loop_seg s (Some (item_loc it)) its); [done|done|].
  simpl in Hlen. lia.
Qed.

Lemma contentsArray_empty s :
  lru_head s = None → contentsArray s = TypeError.
Proof. intros Hh. unfold contentsArray. exec. by rewrite Hh. Qed.

(** [read] of a registered key: the stored value comes back and a node
    carrying the key and that value becomes the head. *)
Lemma read_Inv s its k l :
  Inv s its → lru_cache s !! k = Some l →
  ∃ n s' its',
    lru_heap s !! l = Some n ∧ node_key n = k
    ∧ read k s = Ok (node_value n, s')
    ∧ Inv s' ((lru_fresh s, k, node_value n) :: its')
    ∧ lru_cache s' !! k = Some (lru_fresh s)
    ∧ lru_limit s' = lru_limit s.
Proof.
  intros HI Hc.
  destruct (Inv_split _ _ _ _ HI Hc) as (a & v & b & ->).
  destruct (seg_lookup _ _ _ _ l k v (inv_seg _ _ HI)) as (n & Hn & Hk & Hv).
  { apply elem_of_app. right. by left. }
  assert (lru_limit s ≠ 0) as Hlim0.
  { apply (inv_limit _ _ HI). by destruct a. }
  assert (inherited k = false) as Hki.
  { apply (inv_keys _ _ HI (l, k, v)), elem_of_app. right. by left. }
  destruct (remove_spec _ _ _ _ _ _ HI Hc) as (s1 & Hrm & HI1 & _ & Hl1 & Hf1).
  destruct (add_Inv s1 (a ++ b) k v Hki HI1) as (s' & its' & Hadd & HI' & Hc' & Hl');
    [congruence|].
  exists n, s', its'. rewrite Hv, <- Hf1.
  split_and!; [done|done| |done|done|congruence].
  unfold read. exec. rewrite (cache_get_own _ _ _ Hc). exec.
  rewrite (cache_get_own _ _ _ Hc). exec. rewrite Hn. simpl.
  rewrite Hrm. simpl. rewrite Hv, Hadd. done.
Qed.

Lemma read_absent s k :
  lru_proto s = None → inherited k = false → lru_cache s !! k = None →
  read k s = Ok (VNull, s).
Proof. intros Hp Hk Hc. unfold read. exec. by rewrite cache_get_absent. Qed.

(** ** Reachable states satisfy the invariant *)

Lemma constructor_Inv limit s :
  constructor limit = Ok s → Inv s [] ∧ lru_limit s = default 3 limit.
Proof.
  intros [= <-]. split; [|done]. split; simpl; try done.
  - apply NoDup_nil_2.
  - intros l [n Hn]. by rewrite lookup_empty in Hn.
  - intros it Hit. by apply elem_of_nil in Hit.
Qed.

Lemma add_limit_zero s k v :
  Inv s [] → lru_limit s = 0 → add k v s = TypeError.
Proof.
  intros HI Hl. unfold add, enforceLimit. exec.
  rewrite decide_True by (rewrite (inv_size _ _ HI); done).
  by rewrite (inv_tail _ _ HI).
Qed.

Lemma step_Inv o s its s' :
  inherited (op_key o) = false →
  Inv s its → step o s = Ok (tt, s') → ∃ its', Inv s' its'.
Proof.
  intros Hk HI Hstep. pose proof (inv_proto _ _ HI) as Hp.
  destruct o as [k v|k|k]; simpl in Hstep, Hk.
  - destruct (decide (lru_limit s = 0)) as [Hz|Hnz].
    + destruct its as [|it its].
      * by rewrite add_limit_zero in Hstep.
      * by destruct (inv_limit _ _ HI).
    + destruct (add_Inv s its k v Hk HI Hnz) as (s1 & its1 & Hadd & HI1 & _).
      rewrite Hadd in Hstep. injection Hstep as <-. eauto.
  - revert Hstep. exec. destruct (lru_cache s !! k) as [l|] eqn:Hc.
    + destruct (read_Inv s its k l HI Hc) as (n & s1 & its1 & _ & _ & Hrd & HI1 & _).
      rewrite Hrd. intros [= <-]. eauto.
    + rewrite read_absent by done. intros [= <-]. eauto.
  - destruct (lru_cache s !! k) as [l|] eqn:Hc.
    + destruct (Inv_split _ _ _ _ HI Hc) as (a & v & b & ->).
      destruct (remove_spec _ _ _ _ _ _ HI Hc) as (s1 & Hrm & HI1 & _).
      rewrite Hrm in Hstep. injection Hstep as <-. eauto.
    + rewrite remove_absent in Hstep by done. injection Hstep as <-. eauto.
Qed.

Lemma plain_ops_cons o ops :
  plain_ops (o :: ops) = true →
  inherited (op_key o) = false ∧ plain_ops ops = true.
Proof.
  unfold plain_ops. simpl. intros H. apply andb_true_iff in H as [Ho Hops].
  split; [by apply negb_true_iff|done].
Qed.

Lemma run_Inv ops s its s' :
  plain_ops ops = true →
  Inv s its → run ops s = Ok (tt, s') → ∃ its', Inv s' its'.
Proof.
  revert s its. induction ops as [|o ops IH]; intros s its Hpl HI Hrun.
  - injection Hrun as <-. eauto.
  - apply plain_ops_cons in Hpl as [Ho Hpl].
    simpl in Hrun. revert Hrun. exec.
    destruct (step o s) as [[[] s1]| | |] eqn:Hstep; try done.
    destruct (step_Inv _ _ _ _ Ho HI Hstep) as [its1 HI1]. intros Hrun.
    by apply (IH s1 its1).
Qed.

Lemma plain_reachable_Inv s : plain_reachable s → ∃ its, Inv s its.
Proof.
  intros (limit & ops & Hpl & Hrun). unfold run_from in Hrun.
  destruct (constructor limit) as [s0| | |] eqn:Hc; try done.
  destruct (run ops s0) as [[[] s1]| | |] eqn:Hr; try done.
  injection Hrun as <-.
  apply constructor_Inv in Hc as [HI0 _]. by eapply run_Inv.
Qed.

(** ** The methods on states that satisfy the strong invariant *)


(** A put of a new key below capacity links one node and evicts nothing. *)
Lemma add_SInv_room s its k v :
  inherited k = false →
  SInv s its → lru_cache s !! k = None →
  Z.of_nat (length its) < lru_limit s →
  ∃ s', add k v s = Ok (tt, s')
        ∧ SInv s' ((lru_fresh s, k, v) :: its)
        ∧ lru_cache s' = <[k := lru_fresh s]> (lru_cache s)
        ∧ lru_limit s' = lru_limit s.
Proof.
  intros Hk [HI Hidx Hb] Hc Hlt.
  assert (enforceLimit s = Ok (tt, s)) as Henf.
  { apply enforceLimit_skip. rewrite (inv_size _ _ HI). lia. }
  destruct (add_after s s its k v Hk Henf HI) as (s' & Hadd & HI' & Hc' & Hl' & _);
    [lia|].
  exists s'. split_and!; try done. split; [done| |].
  - intros it Hit. rewrite Hc'. apply elem_of_cons in Hit as [->|Hit].
    + apply lookup_insert_eq.
    + rewrite lookup_insert_ne; [by apply Hidx|].
      intros ->. apply Hidx in Hit. congruence.
  - rewrite Hl'. simpl length. lia.
Qed.

(** A put of a new key at capacity unlinks the tail node, drops its key
    from the dictionary, and links the new node at the head. *)
Lemma add_SInv_full s its itl k v :
  inherited k = false →
  SInv s (its ++ [itl]) → lru_cache s !! k = None →
  Z.of_nat (length (its ++ [itl])) = lru_limit s →
  ∃ s', add k v s = Ok (tt, s')
        ∧ SInv s' ((lru_fresh s, k, v) :: its)
        ∧ lru_cache s' = <[k := lru_fresh s]> (delete (item_key itl) (lru_cache s))
        ∧ lru_limit s' = lru_limit s.
Proof.
  intros Hki HS Hc Hfull. pose proof HS as [HI Hidx Hb].
  destruct (Inv_tail_item _ _ _ HI) as [Htl (n & Hn & Hk)].
  assert (lru_cache s !! item_key itl = Some (item_loc itl)) as Hcl.
  { apply Hidx, elem_of_app. right. by left. }
  destruct itl as [[ll kl] vl].
  destruct (remove_spec s its ll kl vl [] HI Hcl) as (s1 & Hrm & HI1 & Hc1 & Hl1 & Hf1).
  rewrite app_nil_r in HI1.
  assert (enforceLimit s = Ok (tt, s1)) as Henf.
  { unfold enforceLimit. exec. rewrite decide_True by (rewrite (inv_size _ _ HI); lia).
    rewrite Htl, Hn, Hk. exact Hrm. }
  assert (lru_limit s ≠ 0) as Hlim0.
  { apply (inv_limit _ _ HI). by destruct its. }
  destruct (add_after s s1 its k v Hki Henf HI1) as (s' & Hadd & HI' & Hc' & Hl' & _);
    [congruence|].
  rewrite Hf1 in HI', Hc'. rewrite Hc1 in Hc'.
  exists s'. split_and!; [done| |done|congruence].
  split; [done| |].
  - intros it Hit. rewrite Hc'. apply elem_of_cons in Hit as [->|Hit].
    + apply lookup_insert_eq.
    + assert (it ∈ its ++ [(ll, kl, vl)]) as Hit' by (apply elem_of_app; by left).
      rewrite lookup_insert_ne.
      * rewrite lookup_delete_ne; [by apply Hidx|].
        intros Heq.
        assert (item_loc it = ll) as Hloc.
        { apply (Hidx _) in Hit'.
          change (item_key (ll, kl, vl)) with kl in *.
          change (item_loc (ll, kl, vl)) with ll in *. congruence. }
        pose proof (inv_nodup _ _ HI) as Hnd. rewrite fmap_app in Hnd.
        apply NoDup_app in Hnd as (_ & Hdisj & _).
        apply (Hdisj (item_loc it)); [by apply list_elem_of_fmap_2|].
        rewrite Hloc. by left.
      * intros ->. apply Hidx in Hit'. congruence.
  - rewrite Hl', Hl1, <- Hfull, length_app. simpl. lia.
Qed.


(** A put of a key that is not present keeps the strong invariant: below
    capacity nothing is unlinked, at capacity exactly the tail item is. *)
Lemma add_absent_key s its k v :
  inherited k = false →
  SInv s its → 0 < lru_limit s → lru_cache s !! k = None →
  ∃ s' its', add k v s = Ok (tt, s')
             ∧ SInv s' ((lru_fresh s, k, v) :: its')
             ∧ lru_size s' ≤ lru_limit s'
             ∧ (Z.of_nat (length its) < lru_limit s → its' = its)
             ∧ (Z.of_nat (length its) = lru_limit s → ∃ itl, its = its' ++ [itl]).
Proof.
  intros Hk HS Hpos Hc.
  pose proof (sinv_bound _ _ HS) as Hb.
  destruct (decide (Z.of_nat (length its) = lru_limit s)) as [Heq|Hne].
  - destruct its as [|itl its' _] using rev_ind; [simpl in Heq; lia|].
    destruct (add_SInv_full s its' itl k v Hk HS Hc Heq) as (s' & Hadd & HS' & _ & Hl').
    exists s', its'. split_and!; [done|done| |intros; lia|eauto].
    rewrite (inv_size _ _ (sinv_inv _ _ HS')). apply (sinv_bound _ _ HS').
  - destruct (add_SInv_room s its k v Hk HS Hc) as (s' & Hadd & HS' & _ & Hl'); [lia|].
    exists s', its. split_and!; [done|done| |done|intros; lia].
    rewrite (inv_size _ _ (sinv_inv _ _ HS')). apply (sinv_bound _ _ HS').
Qed.

(** ** Sequences of puts of distinct keys *)

Lemma run_app ops1 ops2 s s1 :
  run ops1 s = Ok (tt, s1) → run (ops1 ++ ops2) s = run ops2 s1.
Proof.
  revert s. induction ops1 as [|o ops1 IH]; intros s; simpl.
  - by intros [= <-].
  - exec. destruct (step o s) as [[[] s2]| | |]; try done. apply IH.
Qed.


Lemma entries_elem its k v :
  (k, v) ∈ entries its → ∃ it, it ∈ its ∧ item_key it = k ∧ item_value it = v.
Proof.
  intros Hin. apply list_elem_of_fmap in Hin as (it & Heq & Hit).
  injection Heq as -> ->. eauto.
Qed.

Lemma SInv_cache_keys s its k :
  SInv s its → is_Some (lru_cache s !! k) ↔ k ∈ (entries its).*1.
Proof.
  intros HS. split.
  - intros [l Hl]. destruct (inv_cache _ _ (sinv_inv _ _ HS) _ _ Hl) as [v Hin].
    apply list_elem_of_fmap. exists (k, v). split; [done|].
    apply list_elem_of_fmap. by exists (l, k, v).
  - intros Hin. apply list_elem_of_fmap in Hin as ([k' v] & -> & Hin).
    apply entries_elem in Hin as (it & Hit & <- & _).
    exists (item_loc it). by apply (sinv_indexed _ _ HS).
Qed.


(** ** Reads *)


(** C8, amended.  In every state reached by operations whose keys do not
    name a member of [Object.prototype], a read of a key stored with a
    falsy value returns that stored value itself and promotes the entry;
    the test in [read] is on the dictionary entry, never on the value. *)
Theorem read_returns_stored_falsy (s : LRU) (k : string) (l : loc) (n : Node) :
  plain_reachable s → lru_cache s !! k = Some l → lru_heap s !! l = Some n →
  truthy (node_value n) = false →
  ∃ s' hd, read k s = Ok (node_value n, s')
           ∧ lru_head s' = Some hd ∧ lru_cache s' !! k = Some hd.
Proof.
  intros Hr Hc Hn _. destruct (plain_reachable_Inv _ Hr) as [its HI].
  destruct (read_Inv s its k l HI Hc) as (n0 & s' & its' & Hn0 & _ & Hrd & HI' & Hc' & _).
  rewrite Hn in Hn0. injection Hn0 as <-.
  exists s', (lru_fresh s). split_and!; try done.
  by rewrite (inv_head _ _ HI').
Qed.



(** C8 as stated fails: a stored [0] is read back as [0], not as the
    not-found marker. *)
Lemma read_falsy_value_not_null :
  ¬ (∀ s k l n,
       reachable s → lru_cache s !! k = Some l → lru_heap s !! l = Some n →
       truthy (node_value n) = false →
       ∃ s', read k s = Ok (VNull, s')).
Proof.
  intros H.
  assert (∃ s, run_from (Some 3) [Put "k" (VNum 0)] = Ok s) as [s Hs].
  { eexists. vm_compute. reflexivity. }
  assert (reachable s) as Hr by (eexists _, _; exact Hs).
  vm_compute in Hs. injection Hs as <-.
  destruct (H _ "k" 0%nat (mkNode "k" (VNum 0) None None) Hr) as [s' Hs'];
    [by vm_compute..|].
  vm_compute in Hs'. discriminate Hs'.
Qed.

Lemma read_returns_stored_falsy_witness :
  ∃ s l n, plain_reachable s ∧ lru_cache s !! "k" = Some l ∧ lru_heap s !! l = Some n
    ∧ truthy (node_value n) = false ∧ node_value n = VNum 0
    ∧ ∃ s' hd, read "k" s = Ok (node_value n, s')
               ∧ lru_head s' = Some hd ∧ lru_cache s' !! "k" = Some hd.
Proof.
  assert (∃ s, run_from (Some 3) [Put "k" (VNum 0)] = Ok s) as [s Hs].
  { eexists. vm_compute. reflexivity. }
  assert (plain_reachable s) as Hr by (eexists _, _; split; [|exact Hs]; reflexivity).
  assert (lru_cache s !! "k" = Some 0%nat) as Hc.
  { vm_compute in Hs. injection Hs as <-. by vm_compute. }
  assert (lru_heap s !! 0%nat = Some (mkNode "k" (VNum 0) None None)) as Hn.
  { vm_compute in Hs. injection Hs as <-. by vm_compute. }
  exists s, 0%nat, (mkNode "k" (VNum 0) None None).
  split_and!; [exact Hr|exact Hc|exact Hn|reflexivity|reflexivity|].
  exact (read_returns_stored_falsy s "k" 0%nat _ Hr Hc Hn eq_refl).
Defined.






(** ** Construction *)

(** C5 as stated fails: [new LRU(0)] returns a store. *)
Lemma constructor_accepts_zero :
  ¬ (∀ c, c ≤ 0 → ∀ s, constructor (Some c) ≠ Ok s).
Proof. intros H. by apply (H 0 ltac:(lia) _ eq_refl). Qed.

(** C5, amended.  The constructor validates nothing: for every capacity,
    non-positive ones included, it returns an empty store whose limit is
    that capacity (3 when the argument is omitted). *)
Theorem constructor_total (limit : option Z) :
  ∃ s, constructor limit = Ok s
       ∧ lru_limit s = default 3 limit
       ∧ lru_size s = 0 ∧ lru_head s = None ∧ lru_tail s = None
       ∧ lru_cache s = ∅.
Proof. eexists. by split_and!. Qed.

(** ** Puts of a key that is already present *)

(** C1 fails on the code.  With limit 3, the puts of keys 1, 1, 2 leave
    three nodes; the put of key 3 then unlinks the node registered for key
    1, which is not the tail; the put of key 4 unlinks nothing (the key of
    the tail node is no longer registered) and the count becomes 4. *)
Theorem put_duplicate_key_exceeds_limit :
  ∃ s3 s4 s5,
    run_from (Some 3)
      (puts [("1", VStr "a"); ("1", VStr "b"); ("2", VStr "c")]) = Ok s3
    ∧ lru_size s3 = 3
    ∧ contentsArray s3 = Ok ([VStr "c"; VStr "b"; VStr "a"], s3)
    ∧ lru_cache s3 !! "3" = None
    ∧ add "3" (VStr "d") s3 = Ok (tt, s4)
    ∧ contentsArray s4 = Ok ([VStr "d"; VStr "c"; VStr "a"], s4)
    ∧ lru_cache s4 !! "4" = None
    ∧ add "4" (VStr "e") s4 = Ok (tt, s5)
    ∧ contentsArray s5 = Ok ([VStr "e"; VStr "d"; VStr "c"; VStr "a"], s5)
    ∧ lru_size s5 = 4 ∧ lru_limit s5 = 3.
Proof.
  do 3 eexists. split_and!; vm_compute; reflexivity.
Qed.

(** C2 fails on the code.  On a store holding key 1, [add] of key 1 keeps
    the old node in the chain and counts two entries, where [remove]
    followed by [add] leaves one. *)
Theorem put_existing_key_keeps_old_node :
  ∃ s s1 s2 s3,
    run_from (Some 3) [Put "1" (VStr "a")] = Ok s
    ∧ add "1" (VStr "b") s = Ok (tt, s1)
    ∧ contentsArray s1 = Ok ([VStr "b"; VStr "a"], s1)
    ∧ lru_size s1 = 2
    ∧ remove "1" s = Ok (tt, s2)
    ∧ add "1" (VStr "b") s2 = Ok (tt, s3)
    ∧ contentsArray s3 = Ok ([VStr "b"], s3)
    ∧ lru_size s3 = 1.
Proof.
  do 4 eexists. split_and!; vm_compute; reflexivity.
Qed.

(** C3 fails on the code.  After two puts of key 1 the chain holds the key
    twice while the dictionary has one entry and the count is 2; a remove
    of key 1 then leaves a chain node whose key is not in the dictionary. *)
Theorem put_duplicate_key_breaks_index :
  ∃ s s',
    run_from (Some 3) (puts [("1", VStr "a"); ("1", VStr "b")]) = Ok s
    ∧ chain_keys s = ["1"; "1"]
    ∧ size (lru_cache s) = 1%nat
    ∧ lru_size s = 2
    ∧ remove "1" s = Ok (tt, s')
    ∧ chain_keys s' = ["1"]
    ∧ lru_cache s' !! "1" = None.
Proof.
  do 2 eexists. split_and!; vm_compute; reflexivity.
Qed.

(** ** Snapshots *)

(** C6 fails on the code for the empty store: [contentsArray] on a newly
    constructed store throws instead of returning the empty sequence. *)
Theorem contentsArray_fresh_store_throws (limit : option Z) :
  ∃ s, constructor limit = Ok s ∧ contentsArray s = TypeError.
Proof. eexists. split; [reflexivity|]. by apply contentsArray_empty. Qed.

(** On a store that is not empty, reached by operations whose keys do not
    name a member of [Object.prototype], [contentsArray] returns a
    list of values, starting with the head's, and the store is unchanged. *)
Lemma contentsArray_reachable (s : LRU) (hd : loc) :
  plain_reachable s → lru_head s = Some hd →
  ∃ n rest, lru_heap s !! hd = Some n
            ∧ contentsArray s = Ok (node_value n :: rest, s)
            ∧ Z.of_nat (length (node_value n :: rest)) = lru_size s.
Proof.
  intros Hr Hh. destruct (plain_reachable_Inv _ Hr) as [its HI].
  rewrite (inv_head _ _ HI) in Hh. destruct its as [|it its]; [done|].
  injection Hh as <-. pose proof (inv_seg _ _ HI) as [Hit _].
  eexists _, (values its). split; [exact Hit|].
  rewrite (contentsArray_Inv _ _ _ HI). split; [done|].
  rewrite (inv_size _ _ HI). unfold values. simpl. by rewrite length_fmap.
Qed.

(** ** The memoizing wrapper *)

(** C9 fails on the code when the cached result is falsy.  For a wrapped
    function that returns 0, the second identical call finds the key,
    reads 0 back, takes it for a miss, invokes the function again and puts
    the key a second time. *)
Theorem memoized_falsy_result_recomputed :
  ∃ st0 st1 st2,
    memoizedLRU = Ok st0
    ∧ memoized_call JSON_stringify (λ _, VNum 0) [VNum 0; VNum 0] st0
      = Ok (VNum 0, st1)
    ∧ calls st1 = 1%nat
    ∧ JSON_stringify [VNum 0; VNum 0] = "[0,0]"
    ∧ is_Some (lru_cache (memo st1) !! "[0,0]")
    ∧ memoized_call JSON_stringify (λ _, VNum 0) [VNum 0; VNum 0] st1
      = Ok (VNum 0, st2)
    ∧ calls st2 = 2%nat
    ∧ chain_keys (memo st2) = ["[0,0]"; "[0,0]"].
Proof.
  do 3 eexists. split_and!; try (vm_compute; reflexivity).
  vm_compute. eauto.
Qed.

(** A hit on a truthy cached result returns it without a call. *)
Lemma memoized_call_hit stringify otherFunc argsList st its l n :
  Inv (memo st) its →
  lru_cache (memo st) !! stringify argsList = Some l →
  lru_heap (memo st) !! l = Some n →
  truthy (node_value n) = true →
  ∃ m, memoized_call stringify otherFunc argsList st
       = Ok (node_value n, mkMemoized m (calls st)).
Proof.
  intros HI Hc Hn Ht.
  destruct (read_Inv _ _ _ _ HI Hc) as (n0 & m & its' & Hn0 & _ & Hrd & _).
  rewrite Hn in Hn0. injection Hn0 as <-.
  exists m. unfold memoized_call. by rewrite Hrd, Ht.
Qed.

(** A miss calls the function once and registers the result. *)
Lemma memoized_call_miss stringify otherFunc argsList st its :
  inherited (stringify argsList) = false →
  Inv (memo st) its → lru_limit (memo st) ≠ 0 →
  lru_cache (memo st) !! stringify argsList = None →
  ∃ m, memoized_call stringify otherFunc argsList st
       = Ok (otherFunc argsList, mkMemoized m (S (calls st)))
       ∧ is_Some (lru_cache m !! stringify argsList).
Proof.
  intros Hk HI Hl Hc.
  destruct (add_Inv _ _ (stringify argsList) (otherFunc argsList) Hk HI Hl)
    as (m & its' & Hadd & _ & Hc' & _).
  exists m. unfold memoized_call.
  rewrite (read_absent _ _ (inv_proto _ _ HI) Hk Hc). simpl.
  rewrite Hadd. eauto.
Qed.

(** A hit on a falsy cached result calls the function again. *)
Lemma memoized_call_falsy_hit stringify otherFunc argsList st its l n :
  Inv (memo st) its →
  lru_cache (memo st) !! stringify argsList = Some l →
  lru_heap (memo st) !! l = Some n →
  truthy (node_value n) = false →
  ∃ m, memoized_call stringify otherFunc argsList st
       = Ok (otherFunc argsList, mkMemoized m (S (calls st))).
Proof.
  intros HI Hc Hn Ht.
  destruct (read_Inv _ _ _ _ HI Hc) as (n0 & m & its' & Hn0 & _ & Hrd & HI' & _ & Hl').
  rewrite Hn in Hn0. injection Hn0 as <-.
  assert (lru_limit m ≠ 0) as Hlim by (by apply (inv_limit _ _ HI')).
  assert (inherited (stringify argsList) = false) as Hk.
  { apply (inv_keys _ _ HI' (lru_fresh (memo st), stringify argsList, node_value n)).
    by left. }
  destruct (add_Inv _ _ (stringify argsList) (otherFunc argsList) Hk HI' Hlim)
    as (m' & its'' & Hadd & _).
  exists m'. unfold memoized_call. by rewrite Hrd, Ht; simpl; rewrite Hadd.
Qed.

(** ** The driver at the end of the source file

    [new LRU(5)], puts of keys 1 to 6, then [read(2)] and [read(1)]: the
    reads return "bar" and [null]; the tail then holds "baz", the head
    "bar", and the contents are bar, world, hello, foobar, baz. *)
Example driver_scenario :
  ∃ s s1 s2 hd tl nh nt,
    run_from (Some 5)
      (puts [("1", VStr "foo"); ("2", VStr "bar"); ("3", VStr "baz");
             ("4", VStr "foobar"); ("5", VStr "hello"); ("6", VStr "world")])
      = Ok s
    ∧ read "2" s = Ok (VStr "bar", s1)
    ∧ read "1" s1 = Ok (VNull, s2)
    ∧ lru_tail s2 = Some tl ∧ lru_heap s2 !! tl = Some nt
    ∧ node_value nt = VStr "baz"
    ∧ lru_head s2 = Some hd ∧ lru_heap s2 !! hd = Some nh
    ∧ node_value nh = VStr "bar"
    ∧ contentsArray s2
      = Ok ([VStr "bar"; VStr "world"; VStr "hello"; VStr "foobar"; VStr "baz"],
            s2).
Proof.
  do 7 eexists. split_and!; vm_compute; reflexivity.
Qed.

(** ** The chain of a reachable store *)

Lemma nodes_of_app p a b e :
  nodes_of p (a ++ b) e
  = nodes_of p a (first_loc b e) ++ nodes_of (last_loc a p) b e.
Proof.
  revert p. induction a as [|it a IH]; intros p; simpl; [done|].
  by rewrite IH, first_loc_app, last_loc_cons.
Qed.

Lemma nodes_of_length p its e : length (nodes_of p its e) = length its.
Proof. revert p. induction its as [|it its IH]; intros p; simpl; [done|]. by rewrite IH. Qed.

Lemma nodes_of_keys p its e : node_key <$> nodes_of p its e = item_key <$> its.
Proof. revert p. induction its as [|it its IH]; intros p; simpl; [done|]. by rewrite IH. Qed.

Lemma nodes_of_values p its e : node_value <$> nodes_of p its e = values its.
Proof.
  unfold values. revert p. induction its as [|it its IH]; intros p; simpl; [done|].
  by rewrite IH.
Qed.

Lemma walk_seg h p its fuel :
  seg h p its None → (length its ≤ fuel)%nat →
  walk fuel h (first_loc its None) = nodes_of p its None.
Proof.
  revert p fuel. induction its as [|it its IH]; intros p fuel Hs Hf; simpl.
  - by destruct fuel.
  - destruct Hs as [Hit Hs]. destruct fuel as [|fuel]; simpl in Hf; [lia|].
    simpl. rewrite Hit. simpl. f_equal. apply IH; [done|lia].
Qed.

Lemma walk_back_seg h its e fuel :
  seg h None its e → (length its ≤ fuel)%nat →
  walk_back fuel h (last_loc its None) = reverse (nodes_of None its e).
Proof.
  revert fuel e. induction its as [|it its IH] using rev_ind; intros fuel e Hs Hf.
  - by destruct fuel.
  - apply seg_app in Hs as [Ha [Hit _]].
    rewrite length_app in Hf. simpl in Hf.
    destruct fuel as [|fuel]; [lia|].
    rewrite last_loc_snoc, nodes_of_app, reverse_app. simpl.
    rewrite Hit. simpl. f_equal. apply IH; [done|lia].
Qed.

Lemma chain_Inv s its : Inv s its → chain s = nodes_of None its None.
Proof.
  intros HI. unfold chain. rewrite (inv_head _ _ HI).
  apply walk_seg; [apply (inv_seg _ _ HI)|].
  apply (seg_length_heap _ None _ None); [apply (inv_nodup _ _ HI)|apply (inv_seg _ _ HI)].
Qed.

Lemma chain_keys_Inv s its : Inv s its → chain_keys s = item_key <$> its.
Proof. intros HI. unfold chain_keys. by rewrite (chain_Inv _ _ HI), nodes_of_keys. Qed.

(** X1.  In every store reached by operations whose keys do not name a
    member of [Object.prototype], the count is the number of nodes on the
    chain from the head, and the head, the tail and the count are empty or
    zero together. *)
Theorem size_counts_chain (s : LRU) :
  plain_reachable s →
  lru_size s = Z.of_nat (length (chain s))
  ∧ (lru_head s = None ↔ lru_size s = 0)
  ∧ (lru_tail s = None ↔ lru_size s = 0).
Proof.
  intros Hr. destruct (plain_reachable_Inv _ Hr) as [its HI].
  rewrite (chain_Inv _ _ HI), nodes_of_length, (inv_size _ _ HI),
    (inv_head _ _ HI), (inv_tail _ _ HI).
  split; [done|].
  destruct its as [|it its _] using rev_ind; [done|].
  rewrite last_loc_snoc, length_app. simpl.
  split; (split; [by destruct its|lia]).
Qed.

(** X2.  In every store reached by operations whose keys do not name a
    member of [Object.prototype], the walk from the tail along [prev]
    meets the nodes of the walk from the head along [next], in the
    opposite order. *)
Theorem chain_back_reverse (s : LRU) :
  plain_reachable s → chain_back s = reverse (chain s).
Proof.
  intros Hr. destruct (plain_reachable_Inv _ Hr) as [its HI].
  rewrite (chain_Inv _ _ HI). unfold chain_back. rewrite (inv_tail _ _ HI).
  apply walk_back_seg; [apply (inv_seg _ _ HI)|].
  apply (seg_length_heap _ None _ None); [apply (inv_nodup _ _ HI)|apply (inv_seg _ _ HI)].
Qed.

(** X3.  In every store reached by operations whose keys do not name a
    member of [Object.prototype], a dictionary entry for a key refers to a
    node that lies on the chain and carries that key. *)
Theorem cache_entry_on_chain (s : LRU) (k : string) (l : loc) :
  plain_reachable s → lru_cache s !! k = Some l →
  ∃ n, lru_heap s !! l = Some n ∧ node_key n = k ∧ n ∈ chain s.
Proof.
  intros Hr Hc. destruct (plain_reachable_Inv _ Hr) as [its HI].
  destruct (Inv_split _ _ _ _ HI Hc) as (a & v & b & ->).
  pose proof (inv_seg _ _ HI) as Hs. apply seg_app in Hs as [_ [Hn _]].
  eexists. split; [exact Hn|]. split; [done|].
  rewrite (chain_Inv _ _ HI), nodes_of_app. apply elem_of_app. right.
  simpl. by left.
Qed.

(** ** Operations on reachable stores *)

Lemma plain_ops_snoc ops o :
  plain_ops ops = true → inherited (op_key o) = false →
  plain_ops (ops ++ [o]) = true.
Proof.
  unfold plain_ops. intros Hops Ho. rewrite forallb_app, Hops. simpl.
  by rewrite Ho.
Qed.

Lemma plain_reachable_step s o s' :
  inherited (op_key o) = false →
  plain_reachable s → step o s = Ok (tt, s') → plain_reachable s'.
Proof.
  intros Ho (limit & ops & Hpl & Hrun) Hstep. exists limit, (ops ++ [o]).
  split; [by apply plain_ops_snoc|].
  unfold run_from in *. destruct (constructor limit) as [s0| | |]; try done.
  destruct (run ops s0) as [[[] s1]| | |] eqn:Hr; try done.
  injection Hrun as ->. rewrite (run_app _ _ _ _ Hr). simpl. exec.
  by rewrite Hstep.
Qed.

(** No method assigns [this.limit]. *)
Lemma keeps_limit_bind {A B} (m : M A) (f : A → M B) :
  (∀ s a s', m s = Ok (a, s') → lru_limit s' = lru_limit s) →
  (∀ x s b s', f x s = Ok (b, s') → lru_limit s' = lru_limit s) →
  ∀ s b s', (m ≫= f) s = Ok (b, s') → lru_limit s' = lru_limit s.
Proof.
  intros Hm Hf s b s'. unfold mbind, M_bind.
  destruct (m s) as [[a s1]| | |] eqn:Hms; try done.
  intros Hfs. rewrite (Hf _ _ _ _ Hfs). by eapply Hm.
Qed.

Lemma keeps_limit_modify (f : LRU → LRU) :
  (∀ s, lru_limit (f s) = lru_limit s) →
  ∀ s (u : unit) s', modify f s = Ok (u, s') → lru_limit s' = lru_limit s.
Proof. intros Hf s u s' H. injection H as H. subst s'. apply Hf. Qed.

Lemma keeps_limit_pure {A} (m : M A) :
  (∀ s a s', m s = Ok (a, s') → s' = s) →
  ∀ s a s', m s = Ok (a, s') → lru_limit s' = lru_limit s.
Proof. intros Hm s a s' H. by rewrite (Hm _ _ _ H). Qed.

Lemma node_at_pure l s n s' : node_at l s = Ok (n, s') → s' = s.
Proof. unfold node_at. case_match; [|done]. congruence. Qed.

Lemma cache_get_pure k s e s' : cache_get k s = Ok (e, s') → s' = s.
Proof. unfold cache_get. repeat (case_match; try done); congruence. Qed.

Lemma entry_next_pure e s x s' : entry_next e s = Ok (x, s') → s' = s.
Proof.
  unfold entry_next. exec. repeat (case_match; try done); congruence.
Qed.

Lemma entry_prev_pure e s x s' : entry_prev e s = Ok (x, s') → s' = s.
Proof.
  unfold entry_prev. exec. repeat (case_match; try done); congruence.
Qed.

Lemma entry_value_pure e s x s' : entry_value e s = Ok (x, s') → s' = s.
Proof.
  unfold entry_value. exec. repeat (case_match; try done); congruence.
Qed.

Lemma remove_limit k s (u : unit) s' :
  remove k s = Ok (u, s') → lru_limit s' = lru_limit s.
Proof.
  revert s u s'. unfold remove, update_node.
  repeat first
    [ apply keeps_limit_bind; [|intros ?]
    | apply keeps_limit_modify; by intros ?
    | apply keeps_limit_pure; first
        [ apply node_at_pure | apply cache_get_pure | apply entry_next_pure
        | apply entry_prev_pure | apply entry_value_pure
        | by (unfold gets, mret, M_ret, throw; intros ? ? ?; congruence) ]
    | progress case_match
    | done ].
Qed.

Lemma enforceLimit_limit s (u : unit) s' :
  enforceLimit s = Ok (u, s') → lru_limit s' = lru_limit s.
Proof.
  revert s u s'. unfold enforceLimit.
  repeat first
    [ apply keeps_limit_bind; [|intros ?]
    | apply keeps_limit_modify; by intros ?
    | apply keeps_limit_pure; first
        [ apply node_at_pure | apply cache_get_pure | apply entry_next_pure
        | apply entry_prev_pure | apply entry_value_pure
        | by (unfold gets, mret, M_ret, throw; intros ? ? ?; congruence) ]
    | progress case_match
    | done ];
  try apply remove_limit.
Qed.

Lemma add_limit k v s (u : unit) s' :
  add k v s = Ok (u, s') → lru_limit s' = lru_limit s.
Proof.
  revert s u s'. unfold add, update_node, cache_set, new_Node.
  repeat first
    [ apply keeps_limit_bind; [|intros ?]
    | apply keeps_limit_modify; by intros ?
    | apply keeps_limit_pure; first
        [ apply node_at_pure | apply cache_get_pure | apply entry_next_pure
        | apply entry_prev_pure | apply entry_value_pure
        | by (unfold gets, mret, M_ret, throw; intros ? ? ?; congruence) ]
    | progress case_match
    | done ];
  try apply enforceLimit_limit;
  try by (intros ? ? ? Heq; injection Heq as _ Heq; subst).
Qed.

Lemma read_limit k s v s' :
  read k s = Ok (v, s') → lru_limit s' = lru_limit s.
Proof.
  revert s v s'. unfold read.
  repeat first
    [ apply remove_limit | apply add_limit
    | apply keeps_limit_bind; [|intros ?]
    | apply keeps_limit_modify; by intros ?
    | apply keeps_limit_pure; first
        [ apply node_at_pure | apply cache_get_pure | apply entry_next_pure
        | apply entry_prev_pure | apply entry_value_pure
        | by (unfold gets, mret, M_ret, throw; intros ? ? ?; congruence) ]
    | progress case_match
    | done ].
Qed.

Lemma step_limit o s s' :
  step o s = Ok (tt, s') → lru_limit s' = lru_limit s.
Proof.
  destruct o as [k v|k|k]; simpl.
  - apply add_limit.
  - exec. destruct (read k s) as [[v s1]| | |] eqn:Hrd; try done.
    intros [= <-]. by eapply read_limit.
  - apply remove_limit.
Qed.

Lemma run_limit ops s s' :
  run ops s = Ok (tt, s') → lru_limit s' = lru_limit s.
Proof.
  revert s. induction ops as [|o ops IH]; intros s Hrun.
  - by injection Hrun as <-.
  - simpl in Hrun. revert Hrun. exec.
    destruct (step o s) as [[[] s1]| | |] eqn:Hstep; try done.
    intros Hrun. rewrite (IH s1 Hrun). by apply (step_limit o).
Qed.

(** X4.  The limit given to the constructor (3 when omitted) is the limit
    of the store after any sequence of puts, gets and removes. *)
Theorem limit_is_immutable (limit : option Z) (ops : list op) (s : LRU) :
  run_from limit ops = Ok s → lru_limit s = default 3 limit.
Proof.
  unfold run_from. destruct (constructor limit) as [s0| | |] eqn:Hc; try done.
  destruct (run ops s0) as [[[] s1]| | |] eqn:Hr; try done. intros [= <-].
  apply constructor_Inv in Hc as [HI0 <-]. by apply (run_limit ops).
Qed.

(** Without a match of limit and count, [add] links the new node in front
    of the chain and unlinks nothing. *)
Lemma add_skip_Inv s its k v :
  inherited k = false →
  Inv s its → lru_limit s ≠ lru_size s →
  ∃ s', add k v s = Ok (tt, s')
        ∧ Inv s' ((lru_fresh s, k, v) :: its)
        ∧ lru_cache s' = <[k := lru_fresh s]> (lru_cache s)
        ∧ lru_limit s' = lru_limit s.
Proof.
  intros Hk HI Hne.
  assert (lru_limit s ≠ 0) as Hnz.
  { intros Hz. destruct its as [|it its]; [|by destruct (inv_limit _ _ HI)].
    rewrite (inv_size _ _ HI) in Hne. simpl in Hne. lia. }
  destruct (add_after s s its k v Hk (enforceLimit_skip _ Hne) HI Hnz)
    as (s' & Hadd & HI' & Hc' & Hl' & _).
  eauto.
Qed.

(** X5.  On a store reached by operations whose keys do not name a member
    of [Object.prototype], and whose count differs from its limit, a put
    of such a key (new or present) evicts nothing: the key comes first on
    the chain, the rest of the chain is as before, the count grows by
    one, and the dictionary changes at that key only. *)
Theorem add_without_eviction (s : LRU) (k : string) (v : value) :
  plain_reachable s → inherited k = false → lru_limit s ≠ lru_size s →
  ∃ s', add k v s = Ok (tt, s')
        ∧ chain_keys s' = k :: chain_keys s
        ∧ lru_size s' = lru_size s + 1
        ∧ is_Some (lru_cache s' !! k)
        ∧ ∀ k', k' ≠ k → lru_cache s' !! k' = lru_cache s !! k'.
Proof.
  intros Hr Hk Hne. destruct (plain_reachable_Inv _ Hr) as [its HI].
  destruct (add_skip_Inv s its k v Hk HI Hne) as (s' & Hadd & HI' & Hc' & _).
  exists s'. split_and!; [done| | | |].
  - by rewrite (chain_keys_Inv _ _ HI'), (chain_keys_Inv _ _ HI).
  - rewrite (inv_size _ _ HI'), (inv_size _ _ HI). simpl length. lia.
  - rewrite Hc', lookup_insert_eq. eauto.
  - intros k' Hk'. by rewrite Hc', lookup_insert_ne.
Qed.

(** X6.  A store constructed with a negative limit and used with keys
    that do not name a member of [Object.prototype] never evicts: every
    put succeeds and makes the count one larger. *)
Theorem negative_limit_never_evicts (s : LRU) (k : string) (v : value) :
  plain_reachable s → inherited k = false → lru_limit s < 0 →
  ∃ s', add k v s = Ok (tt, s')
        ∧ lru_size s' = lru_size s + 1
        ∧ lru_limit s' = lru_limit s
        ∧ lru_limit s' < lru_size s'.
Proof.
  intros Hr Hk Hneg. destruct (plain_reachable_Inv _ Hr) as [its HI].
  destruct (add_skip_Inv s its k v Hk HI) as (s' & Hadd & HI' & _ & Hl').
  { rewrite (inv_size _ _ HI). lia. }
  exists s'. rewrite (inv_size _ _ HI'), (inv_size _ _ HI), Hl'. simpl length.
  split_and!; [done|lia|done|lia].
Qed.

(** X7.  On a store constructed with limit 0 and used with keys that do
    not name a member of [Object.prototype], every put throws: the store
    is empty, so [this.tail] is [null] when [enforceLimit] reads its key. *)
Theorem zero_limit_add_throws (s : LRU) (k : string) (v : value) :
  plain_reachable s → lru_limit s = 0 →
  add k v s = TypeError ∧ lru_size s = 0 ∧ lru_cache s !! k = None.
Proof.
  intros Hr Hz. destruct (plain_reachable_Inv _ Hr) as [its HI].
  destruct its as [|it its]; [|by destruct (inv_limit _ _ HI)].
  split_and!; [by apply add_limit_zero|by rewrite (inv_size _ _ HI)|].
  destruct (lru_cache s !! k) as [l|] eqn:Hc; [|done].
  destruct (inv_cache _ _ HI _ _ Hc) as [? Hin]. by apply elem_of_nil in Hin.
Qed.

(** X8.  On a store with a limit other than 0, reached by operations
    whose keys do not name a member of [Object.prototype], a put of such
    a key followed by a get of it returns the value just put, whether or
    not the key was present before. *)
Theorem add_then_read (s : LRU) (k : string) (v : value) :
  plain_reachable s → inherited k = false → lru_limit s ≠ 0 →
  ∃ s' s'', add k v s = Ok (tt, s') ∧ read k s' = Ok (v, s'').
Proof.
  intros Hr Hk Hnz. destruct (plain_reachable_Inv _ Hr) as [its HI].
  destruct (add_Inv s its k v Hk HI Hnz) as (s' & its' & Hadd & HI' & Hc' & _).
  destruct (read_Inv _ _ _ _ HI' Hc') as (n & s'' & _ & Hn & _ & Hrd & _).
  pose proof (inv_seg _ _ HI') as [Hhd _].
  change (item_loc (lru_fresh s, k, v)) with (lru_fresh s) in Hhd.
  rewrite Hhd in Hn. injection Hn as <-. eauto.
Qed.

(** X9.  On a store reached by operations whose keys do not name a member
    of [Object.prototype], [remove] of a present key succeeds, takes
    one node with that key out of the chain and keeps the order of the
    others, drops the key from the dictionary and no other, and makes the
    count one smaller; a get of the key then returns [null]. *)
Theorem remove_present (s : LRU) (k : string) (l : loc) :
  plain_reachable s → lru_cache s !! k = Some l →
  ∃ s' ks1 ks2,
    remove k s = Ok (tt, s')
    ∧ chain_keys s = ks1 ++ k :: ks2
    ∧ chain_keys s' = ks1 ++ ks2
    ∧ lru_cache s' = delete k (lru_cache s)
    ∧ lru_size s' = lru_size s - 1
    ∧ read k s' = Ok (VNull, s').
Proof.
  intros Hr Hc. destruct (plain_reachable_Inv _ Hr) as [its HI].
  destruct (Inv_split _ _ _ _ HI Hc) as (a & v & b & ->).
  destruct (remove_spec _ _ _ _ _ _ HI Hc) as (s' & Hrm & HI' & Hc' & _).
  exists s', (item_key <$> a), (item_key <$> b). split_and!; [done| | |done| |].
  - by rewrite (chain_keys_Inv _ _ HI), fmap_app.
  - by rewrite (chain_keys_Inv _ _ HI'), fmap_app.
  - rewrite (inv_size _ _ HI'), (inv_size _ _ HI), !length_app. simpl. lia.
  - apply read_absent; [apply (inv_proto _ _ HI')| |by rewrite Hc', lookup_delete_eq].
    apply (inv_keys _ _ HI (l, k, v)), elem_of_app. right. by left.
Qed.

(** X10.  On a store reached by operations whose keys do not name a
    member of [Object.prototype], [remove] of such a key never throws, and
    a second [remove] of the same key changes nothing. *)
Theorem remove_twice (s : LRU) (k : string) :
  plain_reachable s → inherited k = false →
  ∃ s', remove k s = Ok (tt, s') ∧ remove k s' = Ok (tt, s').
Proof.
  intros Hr Hk. destruct (plain_reachable_Inv _ Hr) as [its HI].
  destruct (lru_cache s !! k) as [l|] eqn:Hc.
  - destruct (Inv_split _ _ _ _ HI Hc) as (a & v & b & ->).
    destruct (remove_spec _ _ _ _ _ _ HI Hc) as (s' & Hrm & HI' & Hc' & _).
    exists s'. split; [done|]. apply remove_absent;
      [apply (inv_proto _ _ HI')|done|by rewrite Hc', lookup_delete_eq].
  - exists s. by rewrite remove_absent; [|apply (inv_proto _ _ HI)|..].
Qed.

(** X11.  On a store that is not empty, reached by operations whose keys
    do not name a member of [Object.prototype], [contentsArray] returns
    the values of the nodes on the chain from head to tail and leaves the
    store as it was. *)
Theorem contentsArray_chain (s : LRU) :
  plain_reachable s → lru_size s ≠ 0 →
  contentsArray s = Ok (node_value <$> chain s, s).
Proof.
  intros Hr Hnz. destruct (plain_reachable_Inv _ Hr) as [its HI].
  destruct its as [|it its].
  { rewrite (inv_size _ _ HI) in Hnz. done. }
  by rewrite (contentsArray_Inv _ _ _ HI), (chain_Inv _ _ HI), nodes_of_values.
Qed.

(** ** Stores used with puts of absent keys only *)

Lemma indexed_keys_NoDup (c : gmap string loc) (its : list item) :
  (∀ it, it ∈ its → c !! item_key it = Some (item_loc it)) →
  NoDup (item_loc <$> its) → NoDup (item_key <$> its).
Proof.
  induction its as [|it its IH]; intros Hidx Hnd; [apply NoDup_nil_2|].
  rewrite fmap_cons in Hnd. apply NoDup_cons in Hnd as [Hit Hnd].
  rewrite fmap_cons. apply NoDup_cons. split.
  - intros Hin. apply list_elem_of_fmap in Hin as (it' & Hk & Hit').
    apply Hit. apply list_elem_of_fmap. exists it'. split; [|done].
    pose proof (Hidx it ltac:(by left)) as H1.
    pose proof (Hidx it' ltac:(by right)) as H2.
    rewrite Hk in H1. congruence.
  - apply IH; [|done]. intros it' Hit'. apply Hidx. by right.
Qed.

Lemma SInv_keys_NoDup s its : SInv s its → NoDup (item_key <$> its).
Proof.
  intros HS. eapply indexed_keys_NoDup; [apply (sinv_indexed _ _ HS)|].
  apply (inv_nodup _ _ (sinv_inv _ _ HS)).
Qed.

Lemma remove_SInv s a l k v b :
  SInv s (a ++ (l, k, v) :: b) →
  ∃ s', remove k s = Ok (tt, s') ∧ SInv s' (a ++ b)
        ∧ lru_cache s' = delete k (lru_cache s)
        ∧ lru_limit s' = lru_limit s ∧ lru_fresh s' = lru_fresh s.
Proof.
  intros HS. pose proof HS as [HI Hidx Hb].
  assert (lru_cache s !! k = Some l) as Hc.
  { apply (Hidx (l, k, v)), elem_of_app. right. by left. }
  destruct (remove_spec _ _ _ _ _ _ HI Hc) as (s' & Hrm & HI' & Hc' & Hl' & Hf').
  exists s'. split_and!; try done. split; [done| |].
  - intros it Hit. rewrite Hc'.
    assert (it ∈ a ++ (l, k, v) :: b) as Hit'.
    { apply elem_of_app in Hit as [?|?]; apply elem_of_app; [by left|right; by right]. }
    rewrite lookup_delete_ne; [by apply Hidx|].
    intros Heq. pose proof (Hidx _ Hit') as Hcit. rewrite <- Heq, Hc in Hcit.
    injection Hcit as Hloc.
    pose proof (inv_nodup _ _ HI) as Hnd. rewrite fmap_app, fmap_cons in Hnd.
    apply NoDup_app in Hnd as (_ & Hdisj & Hndb).
    apply NoDup_cons in Hndb as [Hlb _].
    apply elem_of_app in Hit as [Hit|Hit].
    + apply (Hdisj (item_loc it)); [by apply list_elem_of_fmap_2|].
      rewrite <- Hloc. by left.
    + apply Hlb. change (item_loc (l, k, v)) with l. rewrite Hloc.
      by apply list_elem_of_fmap_2.
  - rewrite Hl'. rewrite !length_app in *. simpl in Hb. lia.
Qed.

Lemma read_SInv_present s a l k v b :
  SInv s (a ++ (l, k, v) :: b) →
  ∃ s', read k s = Ok (v, s')
        ∧ SInv s' ((lru_fresh s, k, v) :: a ++ b)
        ∧ lru_limit s' = lru_limit s.
Proof.
  intros HS. pose proof HS as [HI Hidx Hb].
  assert (lru_cache s !! k = Some l) as Hc.
  { apply (Hidx (l, k, v)), elem_of_app. right. by left. }
  pose proof (inv_seg _ _ HI) as Hs. apply seg_app in Hs as [_ [Hn _]].
  change (item_loc (l, k, v)) with l in Hn.
  destruct (remove_SInv _ _ _ _ _ _ HS) as (s1 & Hrm & HS1 & Hc1 & Hl1 & Hf1).
  destruct (add_SInv_room s1 (a ++ b) k v) as (s' & Hadd & HS' & _ & Hl').
  { apply (inv_keys _ _ HI (l, k, v)), elem_of_app. right. by left. }
  { done. }
  { by rewrite Hc1, lookup_delete_eq. }
  { rewrite Hl1. rewrite !length_app in *. simpl in Hb. lia. }
  exists s'. rewrite <- Hf1. split_and!; [|done|congruence].
  unfold read. exec. rewrite (cache_get_own _ _ _ Hc). exec.
  rewrite (cache_get_own _ _ _ Hc). exec. rewrite Hn. simpl.
  rewrite Hrm. simpl. by rewrite Hadd.
Qed.

Lemma step_SInv o s its s' :
  inherited (op_key o) = false →
  SInv s its → 0 < lru_limit s → put_absent o s = true →
  step o s = Ok (tt, s') →
  ∃ its', SInv s' its' ∧ lru_limit s' = lru_limit s.
Proof.
  intros Hk HS Hpos Hab Hstep.
  pose proof (inv_proto _ _ (sinv_inv _ _ HS)) as Hp.
  destruct o as [k v|k|k]; simpl in Hstep, Hab, Hk.
  - apply bool_decide_eq_true in Hab.
    destruct (add_absent_key s its k v Hk HS Hpos Hab) as (s1 & its1 & Hadd & HS1 & _).
    rewrite Hadd in Hstep. injection Hstep as <-. eexists. split; [exact HS1|].
    apply (step_limit (Put k v) s _ Hadd).
  - revert Hstep. exec. destruct (lru_cache s !! k) as [l|] eqn:Hc.
    + destruct (Inv_split _ _ _ _ (sinv_inv _ _ HS) Hc) as (a & v & b & ->).
      destruct (read_SInv_present _ _ _ _ _ _ HS) as (s1 & Hrd & HS1 & Hl1).
      rewrite Hrd. intros [= <-]. eauto.
    + rewrite read_absent by done. intros [= <-]. eauto.
  - destruct (lru_cache s !! k) as [l|] eqn:Hc.
    + destruct (Inv_split _ _ _ _ (sinv_inv _ _ HS) Hc) as (a & v & b & ->).
      destruct (remove_SInv _ _ _ _ _ _ HS) as (s1 & Hrm & HS1 & _ & Hl1 & _).
      rewrite Hrm in Hstep. injection Hstep as <-. eauto.
    + rewrite remove_absent in Hstep by done. injection Hstep as <-. eauto.
Qed.

Lemma run_SInv ops : ∀ s its s',
  plain_ops ops = true →
  SInv s its → 0 < lru_limit s → puts_absent ops s = true →
  run ops s = Ok (tt, s') →
  ∃ its', SInv s' its' ∧ lru_limit s' = lru_limit s.
Proof.
  induction ops as [|o ops IH]; intros s its s' Hpl HS Hpos Hab Hrun.
  - injection Hrun as <-. eauto.
  - apply plain_ops_cons in Hpl as [Hko Hpl].
    simpl in Hab, Hrun. apply andb_true_iff in Hab as [Ho Hab].
    revert Hrun. exec.
    destruct (step o s) as [[[] s1]| | |] eqn:Hstep; try done.
    destruct (step_SInv _ _ _ _ Hko HS Hpos Ho Hstep) as (its1 & HS1 & Hl1).
    intros Hrun.
    destruct (IH s1 its1 s' Hpl HS1) as (its' & HS' & Hl'); [lia|done|done|].
    exists its'. split; [done|congruence].
Qed.

Lemma tidy_SInv s : tidy s → ∃ its, SInv s its ∧ 0 < lru_limit s.
Proof.
  intros (limit & ops & s0 & Hpos & Hpl & Hc & Hab & Hrun).
  destruct (constructor_Inv _ _ Hc) as [HI0 Hl0].
  assert (SInv s0 []) as HS0.
  { split; [done| |simpl; lia]. intros it Hit. by apply elem_of_nil in Hit. }
  destruct (run_SInv ops s0 [] s Hpl HS0) as (its & HS & Hl); [lia|done|done|].
  exists its. split; [done|lia].
Qed.

Lemma puts_absent_snoc ops : ∀ s0 s o s',
  puts_absent ops s0 = true → run ops s0 = Ok (tt, s) →
  put_absent o s = true → step o s = Ok (tt, s') →
  puts_absent (ops ++ [o]) s0 = true.
Proof.
  induction ops as [|o1 ops IH]; intros s0 s o s' Hab Hrun Ho Hstep; simpl in *.
  - injection Hrun as <-. by rewrite Ho, Hstep.
  - apply andb_true_iff in Hab as [Ho1 Hab]. rewrite Ho1. simpl.
    revert Hrun. exec.
    destruct (step o1 s0) as [[[] s1]| | |]; try done. intros Hrun.
    by eapply IH.
Qed.

Lemma tidy_step s o s' :
  inherited (op_key o) = false →
  tidy s → put_absent o s = true → step o s = Ok (tt, s') → tidy s'.
Proof.
  intros Hk (limit & ops & s0 & Hpos & Hpl & Hc & Hab & Hrun) Ho Hstep.
  exists limit, (ops ++ [o]), s0.
  split_and!; [done|by apply plain_ops_snoc|done| |].
  - by eapply puts_absent_snoc.
  - rewrite (run_app _ _ _ _ Hrun). simpl. exec. by rewrite Hstep.
Qed.

Lemma tidy_reachable s : tidy s → plain_reachable s.
Proof.
  intros (limit & ops & s0 & _ & Hpl & Hc & _ & Hrun). exists limit, ops.
  split; [done|]. unfold run_from. by rewrite Hc, Hrun.
Qed.

Lemma entries_keys its : (entries its).*1 = item_key <$> its.
Proof. unfold entries. by rewrite <- list_fmap_compose. Qed.

Lemma filter_ne_notin (k : string) (l : list string) :
  k ∉ l → filter (λ x, x ≠ k) l = l.
Proof.
  induction l as [|x l IH]; intros Hk; [done|].
  apply not_elem_of_cons in Hk as [Hne Hk].
  rewrite filter_cons_True by done. by rewrite IH.
Qed.

(** X12.  With puts of absent keys only and keys that do not name a
    member of [Object.prototype], on a store constructed with a positive
    limit, the count stays between 0 and the limit. *)
Theorem tidy_capacity (s : LRU) :
  tidy s → 0 ≤ lru_size s ≤ lru_limit s.
Proof.
  intros Ht. destruct (tidy_SInv _ Ht) as (its & HS & _).
  rewrite (inv_size _ _ (sinv_inv _ _ HS)).
  pose proof (sinv_bound _ _ HS). lia.
Qed.

(** X13.  With puts of absent keys only and keys that do not name a
    member of [Object.prototype], no key occurs twice on the
    chain, the keys of the dictionary are the keys on the chain, each
    dictionary entry is the chain node of its key, and the dictionary has
    as many entries as the count says. *)
Theorem tidy_index (s : LRU) :
  tidy s →
  NoDup (chain_keys s)
  ∧ (∀ k, is_Some (lru_cache s !! k) ↔ k ∈ chain_keys s)
  ∧ Z.of_nat (size (lru_cache s)) = lru_size s.
Proof.
  intros Ht. destruct (tidy_SInv _ Ht) as (its & HS & _).
  pose proof (sinv_inv _ _ HS) as HI.
  pose proof (SInv_keys_NoDup _ _ HS) as Hnd.
  rewrite (chain_keys_Inv _ _ HI).
  assert (∀ k, is_Some (lru_cache s !! k) ↔ k ∈ item_key <$> its) as Hkeys.
  { intros k. by rewrite (SInv_cache_keys _ _ k HS), entries_keys. }
  split_and!; [done|done|].
  assert (dom (lru_cache s) = list_to_set (item_key <$> its)) as Hdom.
  { apply set_eq. intros k. by rewrite elem_of_dom, elem_of_list_to_set. }
  rewrite <- size_dom, Hdom, size_list_to_set by done.
  by rewrite length_fmap, (inv_size _ _ HI).
Qed.

(** X14.  With puts of absent keys only and keys that do not name a
    member of [Object.prototype], a put of such an absent key on a full
    store evicts exactly the key of the tail node: the new key comes
    first on the chain, the last key is gone from chain and dictionary,
    every other key keeps its place and its entry, and the store stays
    full. *)
Theorem tidy_add_at_capacity (s : LRU) (k : string) (v : value) :
  tidy s → inherited k = false →
  lru_size s = lru_limit s → lru_cache s !! k = None →
  ∃ s' ks kt,
    add k v s = Ok (tt, s')
    ∧ tidy s'
    ∧ chain_keys s = ks ++ [kt]
    ∧ chain_keys s' = k :: ks
    ∧ lru_cache s' !! kt = None
    ∧ is_Some (lru_cache s' !! k)
    ∧ (∀ k', k' ≠ k → k' ≠ kt → lru_cache s' !! k' = lru_cache s !! k')
    ∧ lru_size s' = lru_limit s'.
Proof.
  intros Ht Hk Hfull Hc. destruct (tidy_SInv _ Ht) as (its & HS & Hpos).
  pose proof (sinv_inv _ _ HS) as HI.
  rewrite (inv_size _ _ HI) in Hfull.
  destruct its as [|itl its _] using rev_ind; [simpl in Hfull; lia|].
  destruct (add_SInv_full s its itl k v Hk HS Hc Hfull) as (s' & Hadd & HS' & Hc' & Hl').
  pose proof (sinv_inv _ _ HS') as HI'.
  assert (item_key itl ≠ k) as Hne.
  { intros <-. rewrite (sinv_indexed _ _ HS itl) in Hc; [done|].
    apply elem_of_app. right. by left. }
  exists s', (item_key <$> its), (item_key itl). split_and!; [done| | | | | | |].
  - apply (tidy_step s (Put k v)); [done|done| |done].
    simpl. by apply bool_decide_eq_true.
  - by rewrite (chain_keys_Inv _ _ HI), fmap_app.
  - by rewrite (chain_keys_Inv _ _ HI').
  - rewrite Hc', lookup_insert_ne by done. apply lookup_delete_eq.
  - rewrite Hc', lookup_insert_eq. eauto.
  - intros k' Hk' Hkt. by rewrite Hc', lookup_insert_ne, lookup_delete_ne.
  - rewrite (inv_size _ _ HI'), Hl', <- Hfull, length_app. simpl. lia.
Qed.

(** X15.  With puts of absent keys only and keys that do not name a
    member of [Object.prototype], a get of a present key returns
    its value, moves the key to the front of the chain and keeps the
    order of the other keys, the set of keys and the count: a get never
    evicts. *)
Theorem tidy_read_order (s : LRU) (k : string) :
  tidy s → is_Some (lru_cache s !! k) →
  ∃ v s',
    read k s = Ok (v, s')
    ∧ tidy s'
    ∧ chain_keys s' = k :: filter (λ x, x ≠ k) (chain_keys s)
    ∧ (∀ k', is_Some (lru_cache s' !! k') ↔ is_Some (lru_cache s !! k'))
    ∧ lru_size s' = lru_size s.
Proof.
  intros Ht [l Hc]. destruct (tidy_SInv _ Ht) as (its & HS & Hpos).
  pose proof (sinv_inv _ _ HS) as HI.
  destruct (Inv_split _ _ _ _ HI Hc) as (a & v & b & ->).
  destruct (read_SInv_present _ _ _ _ _ _ HS) as (s' & Hrd & HS' & Hl').
  pose proof (sinv_inv _ _ HS') as HI'.
  pose proof (SInv_keys_NoDup _ _ HS) as Hnd.
  rewrite fmap_app, fmap_cons in Hnd.
  apply NoDup_app in Hnd as (_ & Hka & Hndb).
  apply NoDup_cons in Hndb as [Hkb _].
  change (item_key (l, k, v)) with k in Hka, Hkb.
  exists v, s'. split_and!; [done| | | |].
  - apply (tidy_step s (Get k)); [|done|done|simpl; exec; by rewrite Hrd].
    apply (inv_keys _ _ HI (l, k, v)), elem_of_app. right. by left.
  - rewrite (chain_keys_Inv _ _ HI'), (chain_keys_Inv _ _ HI).
    rewrite !fmap_cons, !fmap_app, fmap_cons.
    change (item_key (lru_fresh s, k, v)) with k.
    change (item_key (l, k, v)) with k.
    rewrite filter_app, filter_cons_False by (intros Hn; by apply Hn).
    rewrite !filter_ne_notin; [done|done|].
    intros Hin. apply (Hka k Hin). by left.
  - intros k'. rewrite (SInv_cache_keys _ _ k' HS'), (SInv_cache_keys _ _ k' HS).
    rewrite !entries_keys, !fmap_cons, !fmap_app, fmap_cons.
    rewrite !elem_of_cons, !elem_of_app, elem_of_cons.
    change (item_key (lru_fresh s, k, v)) with k.
    change (item_key (l, k, v)) with k. tauto.
  - rewrite (inv_size _ _ HI'), (inv_size _ _ HI). simpl.
    rewrite !length_app. simpl. lia.
Qed.

(** ** Calls of a memoized function *)

Lemma enforceLimit_Inv_sub s its :
  Inv s its → lru_limit s ≠ 0 →
  ∃ s' its', enforceLimit s = Ok (tt, s') ∧ Inv s' its' ∧ its' ⊆ its
             ∧ lru_limit s' = lru_limit s ∧ lru_fresh s' = lru_fresh s.
Proof.
  intros HI Hlim0.
  destruct (decide (lru_limit s = lru_size s)) as [Heq|Hne];
    [|exists s, its; by rewrite enforceLimit_skip].
  destruct its as [|it its _] using rev_ind.
  { rewrite (inv_size _ _ HI) in Heq. simpl in Heq. lia. }
  destruct (Inv_tail_item _ _ _ HI) as [Htl (n & Hn & Hk)].
  unfold enforceLimit. exec. rewrite decide_True by done.
  rewrite Htl, Hn, Hk.
  destruct (lru_cache s !! item_key it) as [l|] eqn:Hc.
  - destruct (Inv_split _ _ _ _ HI Hc) as (a & v & b & Hsplit).
    rewrite Hsplit in HI |- *.
    destruct (remove_spec _ _ _ _ _ _ HI Hc) as (s' & -> & HI' & _ & ? & ?).
    exists s', (a ++ b). split_and!; try done.
    intros x Hx. apply elem_of_app in Hx as [?|?]; apply elem_of_app;
      [by left|right; by right].
  - rewrite remove_absent; [by exists s, (its ++ [it])|apply (inv_proto _ _ HI)| |done].
    apply (inv_keys _ _ HI), elem_of_app. right. by left.
Qed.

Lemma add_Inv_sub s its k v :
  inherited k = false → Inv s its → lru_limit s ≠ 0 →
  ∃ s' its', add k v s = Ok (tt, s')
             ∧ Inv s' ((lru_fresh s, k, v) :: its')
             ∧ its' ⊆ its
             ∧ lru_cache s' !! k = Some (lru_fresh s)
             ∧ lru_limit s' = lru_limit s.
Proof.
  intros Hk HI Hlim0.
  destruct (enforceLimit_Inv_sub _ _ HI Hlim0)
    as (s1 & its1 & Henf & HI1 & Hsub & Hl1 & Hf1).
  destruct (add_after s s1 its1 k v Hk Henf HI1) as (s' & Hadd & HI' & Hc' & Hl' & _);
    [congruence|].
  exists s', its1. rewrite <- Hf1. split_and!; [done|done|done| |congruence].
  by rewrite Hc', lookup_insert_eq.
Qed.

Lemma read_Inv_sub s its k l :
  Inv s its → lru_cache s !! k = Some l →
  ∃ v s' its',
    (l, k, v) ∈ its
    ∧ read k s = Ok (v, s')
    ∧ Inv s' ((lru_fresh s, k, v) :: its')
    ∧ its' ⊆ its
    ∧ lru_cache s' !! k = Some (lru_fresh s)
    ∧ lru_limit s' = lru_limit s.
Proof.
  intros HI Hc.
  destruct (Inv_split _ _ _ _ HI Hc) as (a & v & b & ->).
  pose proof (inv_seg _ _ HI) as Hs. apply seg_app in Hs as [_ [Hn _]].
  change (item_loc (l, k, v)) with l in Hn.
  assert (lru_limit s ≠ 0) as Hlim0.
  { apply (inv_limit _ _ HI). by destruct a. }
  assert (inherited k = false) as Hk.
  { apply (inv_keys _ _ HI (l, k, v)), elem_of_app. right. by left. }
  destruct (remove_spec _ _ _ _ _ _ HI Hc) as (s1 & Hrm & HI1 & _ & Hl1 & Hf1).
  destruct (add_Inv_sub s1 (a ++ b) k v Hk HI1)
    as (s' & its' & Hadd & HI' & Hsub & Hc' & Hl'); [congruence|].
  exists v, s', its'. rewrite <- Hf1.
  split_and!; [|  |done| |done|congruence].
  - apply elem_of_app. right. by left.
  - unfold read. exec. rewrite (cache_get_own _ _ _ Hc). exec.
    rewrite (cache_get_own _ _ _ Hc). exec. rewrite Hn. simpl.
    rewrite Hrm. simpl. by rewrite Hadd.
  - intros x Hx. apply Hsub in Hx.
    apply elem_of_app in Hx as [?|?]; apply elem_of_app; [by left|right; by right].
Qed.

Lemma computed_by_cons stringify otherFunc l a its :
  computed_by stringify otherFunc its →
  computed_by stringify otherFunc ((l, stringify a, otherFunc a) :: its).
Proof.
  intros Hits it Hit. apply elem_of_cons in Hit as [->|Hit]; [by exists a|].
  by apply Hits.
Qed.

Lemma computed_by_sub stringify otherFunc its its' :
  its' ⊆ its → computed_by stringify otherFunc its →
  computed_by stringify otherFunc its'.
Proof. intros Hsub Hits it Hit. by apply Hits, Hsub. Qed.

(** One call, on a private store satisfying the invariant. *)
Lemma memoized_call_Inv stringify otherFunc argsList st its :
  inherited (stringify argsList) = false →
  Inv (memo st) its → lru_limit (memo st) ≠ 0 →
  computed_by stringify otherFunc its →
  ∃ v st' l its',
    memoized_call stringify otherFunc argsList st = Ok (v, st')
    ∧ Inv (memo st') ((l, stringify argsList, v) :: its')
    ∧ computed_by stringify otherFunc ((l, stringify argsList, v) :: its')
    ∧ lru_cache (memo st') !! stringify argsList = Some l
    ∧ lru_limit (memo st') = lru_limit (memo st)
    ∧ (calls st' = calls st ∧ truthy v = true
       ∧ is_Some (lru_cache (memo st) !! stringify argsList)
       ∨ calls st' = S (calls st) ∧ v = otherFunc argsList).
Proof.
  intros Hk HI Hnz Hcomp. unfold memoized_call.
  destruct (lru_cache (memo st) !! stringify argsList) as [l|] eqn:Hc.
  - destruct (read_Inv_sub _ _ _ _ HI Hc)
      as (v & m1 & its1 & Hin & Hrd & HI1 & Hsub1 & Hc1 & Hl1).
    rewrite Hrd.
    assert (computed_by stringify otherFunc
              ((lru_fresh (memo st), stringify argsList, v) :: its1)) as Hcomp1.
    { intros it Hit. apply elem_of_cons in Hit as [->|Hit].
      - apply (Hcomp _ Hin).
      - by apply Hcomp, Hsub1. }
    destruct (truthy v) eqn:Ht; simpl.
    + exists v, (mkMemoized m1 (calls st)), (lru_fresh (memo st)), its1.
      split_and!; try done. left. eauto.
    + destruct (add_Inv_sub m1 _ (stringify argsList) (otherFunc argsList) Hk HI1)
        as (m2 & its2 & Hadd & HI2 & Hsub2 & Hc2 & Hl2); [congruence|].
      rewrite Hadd.
      exists (otherFunc argsList), (mkMemoized m2 (S (calls st))), (lru_fresh m1), its2.
      split_and!; [done|done| |done|simpl; congruence|by right].
      apply computed_by_cons. by eapply computed_by_sub.
  - rewrite (read_absent _ _ (inv_proto _ _ HI) Hk Hc). simpl.
    destruct (add_Inv_sub _ _ (stringify argsList) (otherFunc argsList) Hk HI Hnz)
      as (m2 & its2 & Hadd & HI2 & Hsub2 & Hc2 & Hl2).
    rewrite Hadd.
    exists (otherFunc argsList), (mkMemoized m2 (S (calls st))),
      (lru_fresh (memo st)), its2.
    split_and!; [done|done| |done|done|by right].
    apply computed_by_cons. by eapply computed_by_sub.
Qed.

Lemma memoized_calls_Inv stringify otherFunc argss : ∀ st its st',
  (∀ a, inherited (stringify a) = false) →
  Inv (memo st) its → lru_limit (memo st) ≠ 0 →
  computed_by stringify otherFunc its →
  memoized_calls stringify otherFunc argss st = Ok st' →
  ∃ its', Inv (memo st') its' ∧ lru_limit (memo st') ≠ 0
          ∧ computed_by stringify otherFunc its'.
Proof.
  induction argss as [|a argss IH]; intros st its st' Hk HI Hnz Hcomp Hrun.
  - injection Hrun as <-. eauto.
  - simpl in Hrun.
    destruct (memoized_call_Inv stringify otherFunc a st its (Hk a) HI Hnz Hcomp)
      as (v & st1 & l & its1 & Hcall & HI1 & Hcomp1 & _ & Hl1 & _).
    rewrite Hcall in Hrun.
    eapply IH; [exact Hk|exact HI1|congruence|exact Hcomp1|exact Hrun].
Qed.

Lemma memo_reachable_Inv stringify otherFunc st :
  (∀ a, inherited (stringify a) = false) →
  memo_reachable stringify otherFunc st →
  ∃ its, Inv (memo st) its ∧ lru_limit (memo st) ≠ 0
         ∧ computed_by stringify otherFunc its.
Proof.
  intros Hk (argss & st0 & H0 & Hrun). injection H0 as <-.
  eapply (memoized_calls_Inv _ _ argss _ []); [exact Hk| | | |exact Hrun].
  - by apply (constructor_Inv (Some 3)).
  - done.
  - intros it Hit. by apply elem_of_nil in Hit.
Qed.

Lemma memoized_calls_app stringify otherFunc argss1 argss2 st st1 :
  memoized_calls stringify otherFunc argss1 st = Ok st1 →
  memoized_calls stringify otherFunc (argss1 ++ argss2) st
  = memoized_calls stringify otherFunc argss2 st1.
Proof.
  revert st. induction argss1 as [|a argss1 IH]; intros st; simpl.
  - by intros [= <-].
  - destruct (memoized_call stringify otherFunc a st) as [[v st2]| | |]; try done.
    apply IH.
Qed.

Lemma memo_reachable_call stringify otherFunc argsList st v st' :
  memo_reachable stringify otherFunc st →
  memoized_call stringify otherFunc argsList st = Ok (v, st') →
  memo_reachable stringify otherFunc st'.
Proof.
  intros (argss & st0 & H0 & Hrun) Hcall. exists (argss ++ [argsList]), st0.
  split; [done|]. rewrite (memoized_calls_app _ _ _ _ _ _ Hrun). simpl.
  by rewrite Hcall.
Qed.

(** The theorems below ask that the key derivation never yields the name
    of a member of [Object.prototype].  Without that, a call can throw:
    with a derivation that maps one argument list to [toString], after
    five calls that leave four nodes in the private store, the read of
    [toString] finds the inherited function, clears head and tail, and
    [enforceLimit] then reads the key of a [null] tail. *)
Lemma memoized_call_inherited_key_throws :
  ∃ (stringify : list value → string) (otherFunc : list value → value)
    (st : memoized),
    stringify [VNum 5] = "toString"
    ∧ memo_reachable stringify otherFunc st
    ∧ memoized_call stringify otherFunc [VNum 5] st = TypeError.
Proof.
  exists (λ a, match a with [VNum 5] => "toString" | _ => JSON_stringify a end),
    (λ a, match a with [VNum 0] => VNum 0 | _ => VNum 1 end).
  assert (∃ st,
    memoized_calls
      (λ a, match a with [VNum 5] => "toString" | _ => JSON_stringify a end)
      (λ a, match a with [VNum 0] => VNum 0 | _ => VNum 1 end)
      [[VNum 0]; [VNum 0]; [VNum 1]; [VNum 2]; [VNum 3]]
      (mkMemoized (mkLRU ∅ 0%nat 0 3 None None ∅ None) 0) = Ok st)
    as [st Hst] by (eexists; vm_compute; reflexivity).
  exists st. split_and!; [reflexivity| |].
  - eexists _, _. split; [reflexivity|exact Hst].
  - vm_compute in Hst. injection Hst as <-. vm_compute. reflexivity.
Qed.

(** X16.  When the key derivation never yields the name of a member of
    [Object.prototype] (the text of a JSON array never does), then after
    any sequence of calls, a call of the memoized function never throws,
    invokes the wrapped function at most once, and returns the wrapped
    function's result on some argument list with the same derived key;
    the private store keeps limit 3. *)
Theorem memoized_call_total stringify otherFunc (argsList : list value)
    (st : memoized) :
  (∀ a, inherited (stringify a) = false) →
  memo_reachable stringify otherFunc st →
  ∃ v st',
    memoized_call stringify otherFunc argsList st = Ok (v, st')
    ∧ memo_reachable stringify otherFunc st'
    ∧ (calls st' = calls st ∨ calls st' = S (calls st))
    ∧ (∃ a, stringify a = stringify argsList ∧ v = otherFunc a)
    ∧ lru_limit (memo st') = lru_limit (memo st).
Proof.
  intros Hk Hr.
  destruct (memo_reachable_Inv _ _ _ Hk Hr) as (its & HI & Hnz & Hcomp).
  destruct (memoized_call_Inv stringify otherFunc argsList st its (Hk _) HI Hnz Hcomp)
    as (v & st' & l & its' & Hcall & _ & Hcomp' & _ & Hl' & Hcalls).
  exists v, st'. split_and!; [done| | | |done].
  - by eapply memo_reachable_call.
  - destruct Hcalls as [(? & _)|(? & _)]; eauto.
  - destruct (Hcomp' (l, stringify argsList, v)) as (a & Ha & Hv); [by left|].
    by exists a.
Qed.

(** X17.  When the key derivation never yields the name of a member of
    [Object.prototype] and the wrapped function gives the same result on
    all argument lists that share the derived key of [argsList], a call of
    the memoized function on [argsList] returns the wrapped function's
    result on [argsList], after any sequence of earlier calls. *)
Theorem memoized_call_value stringify otherFunc (argsList : list value)
    (st : memoized) :
  (∀ a, inherited (stringify a) = false) →
  memo_reachable stringify otherFunc st →
  (∀ a, stringify a = stringify argsList → otherFunc a = otherFunc argsList) →
  ∃ st', memoized_call stringify otherFunc argsList st
         = Ok (otherFunc argsList, st').
Proof.
  intros Hk Hr Hkey.
  destruct (memo_reachable_Inv _ _ _ Hk Hr) as (its & HI & Hnz & Hcomp).
  destruct (memoized_call_Inv stringify otherFunc argsList st its (Hk _) HI Hnz Hcomp)
    as (v & st' & l & its' & Hcall & _ & Hcomp' & _).
  destruct (Hcomp' (l, stringify argsList, v)) as (a & Ha & Hv); [by left|].
  exists st'. rewrite Hcall. simpl in Hv. by rewrite <- Hv, (Hkey a Ha).
Qed.

(** X18.  When the key derivation never yields the name of a member of
    [Object.prototype], then after any sequence of calls, a call whose
    derived key is cached with a truthy value returns that value and does
    not invoke the wrapped function. *)
Theorem memoized_hit_truthy stringify otherFunc (argsList : list value)
    (st : memoized) (l : loc) (n : Node) :
  (∀ a, inherited (stringify a) = false) →
  memo_reachable stringify otherFunc st →
  lru_cache (memo st) !! stringify argsList = Some l →
  lru_heap (memo st) !! l = Some n →
  truthy (node_value n) = true →
  ∃ st', memoized_call stringify otherFunc argsList st
         = Ok (node_value n, st')
         ∧ calls st' = calls st.
Proof.
  intros Hk Hr Hc Hn Ht.
  destruct (memo_reachable_Inv _ _ _ Hk Hr) as (its & HI & _).
  destruct (memoized_call_hit stringify otherFunc argsList st its l n HI Hc Hn Ht)
    as [m Hcall].
  eexists. split; [exact Hcall|done].
Qed.

(** X19.  When the key derivation never yields the name of a member of
    [Object.prototype], then after any sequence of calls, a call whose
    derived key is cached with a falsy value invokes the wrapped function
    again and returns the new result. *)
Theorem memoized_hit_falsy stringify otherFunc (argsList : list value)
    (st : memoized) (l : loc) (n : Node) :
  (∀ a, inherited (stringify a) = false) →
  memo_reachable stringify otherFunc st →
  lru_cache (memo st) !! stringify argsList = Some l →
  lru_heap (memo st) !! l = Some n →
  truthy (node_value n) = false →
  ∃ st', memoized_call stringify otherFunc argsList st
         = Ok (otherFunc argsList, st')
         ∧ calls st' = S (calls st).
Proof.
  intros Hk Hr Hc Hn Ht.
  destruct (memo_reachable_Inv _ _ _ Hk Hr) as (its & HI & _).
  destruct (memoized_call_falsy_hit stringify otherFunc argsList st its l n HI Hc Hn Ht)
    as [m Hcall].
  eexists. split; [exact Hcall|done].
Qed.

(** X20.  When the key derivation never yields the name of a member of
    [Object.prototype], and the wrapped function's result on [argsList] is
    truthy and is shared by all argument lists with the same derived key,
    two successive calls on [argsList] both return it and the second one
    does not invoke the wrapped function. *)
Theorem memoized_call_twice stringify otherFunc (argsList : list value)
    (st : memoized) :
  (∀ a, inherited (stringify a) = false) →
  memo_reachable stringify otherFunc st →
  (∀ a, stringify a = stringify argsList → otherFunc a = otherFunc argsList) →
  truthy (otherFunc argsList) = true →
  ∃ st1 st2,
    memoized_call stringify otherFunc argsList st = Ok (otherFunc argsList, st1)
    ∧ memoized_call stringify otherFunc argsList st1
      = Ok (otherFunc argsList, st2)
    ∧ calls st2 = calls st1.
Proof.
  intros Hk Hr Hkey Ht.
  destruct (memo_reachable_Inv _ _ _ Hk Hr) as (its & HI & Hnz & Hcomp).
  destruct (memoized_call_Inv stringify otherFunc argsList st its (Hk _) HI Hnz Hcomp)
    as (v & st1 & l & its1 & Hcall & HI1 & Hcomp1 & Hc1 & _).
  destruct (Hcomp1 (l, stringify argsList, v)) as (a & Ha & Hv); [by left|].
  simpl in Hv. rewrite (Hkey a Ha) in Hv. subst v.
  pose proof (inv_seg _ _ HI1) as [Hn _].
  change (item_loc (l, stringify argsList, otherFunc argsList)) with l in Hn.
  destruct (memoized_call_hit stringify otherFunc argsList st1 _ l _ HI1 Hc1 Hn Ht)
    as [m Hcall2].
  eexists st1, _. split_and!; [exact Hcall|exact Hcall2|done].
Qed.

(** ** Puts on reachable stores *)

Lemma enforceLimit_Inv_length s its :
  Inv s its → lru_limit s ≠ 0 →
  ∃ s' its', enforceLimit s = Ok (tt, s') ∧ Inv s' its'
             ∧ (length its' = length its ∨ S (length its') = length its)
             ∧ lru_fresh s' = lru_fresh s.
Proof.
  intros HI Hlim0.
  destruct (decide (lru_limit s = lru_size s)) as [Heq|Hne].
  2:{ exists s, its. rewrite enforceLimit_skip by done. eauto. }
  destruct its as [|it its _] using rev_ind.
  { rewrite (inv_size _ _ HI) in Heq. simpl in Heq. lia. }
  destruct (Inv_tail_item _ _ _ HI) as [Htl (n & Hn & Hk)].
  unfold enforceLimit. exec. rewrite decide_True by done.
  rewrite Htl, Hn, Hk.
  destruct (lru_cache s !! item_key it) as [l|] eqn:Hc.
  - destruct (Inv_split _ _ _ _ HI Hc) as (a & v & b & Hsplit).
    rewrite Hsplit in HI |- *.
    destruct (remove_spec _ _ _ _ _ _ HI Hc) as (s' & -> & HI' & _ & _ & ?).
    exists s', (a ++ b). split_and!; try done.
    right. rewrite !length_app. simpl. lia.
  - rewrite remove_absent; [exists s, (its ++ [it]); eauto|apply (inv_proto _ _ HI)| |done].
    apply (inv_keys _ _ HI), elem_of_app. right. by left.
Qed.

(** X21.  On a store with a limit other than 0, reached by operations
    whose keys do not name a member of [Object.prototype], a put of such
    a key never throws; it leaves a node with the key and the value at
    the head,
    registered in the dictionary, and unlinks at most one node: the count
    grows by one or stays as it was. *)
Theorem add_puts_at_head (s : LRU) (k : string) (v : value) :
  plain_reachable s → inherited k = false → lru_limit s ≠ 0 →
  ∃ s' hd n,
    add k v s = Ok (tt, s')
    ∧ plain_reachable s'
    ∧ lru_head s' = Some hd
    ∧ lru_cache s' !! k = Some hd
    ∧ lru_heap s' !! hd = Some n
    ∧ node_key n = k ∧ node_value n = v ∧ node_prev n = None
    ∧ (lru_size s' = lru_size s + 1 ∨ lru_size s' = lru_size s).
Proof.
  intros Hr Hk Hnz. destruct (plain_reachable_Inv _ Hr) as [its HI].
  destruct (enforceLimit_Inv_length _ _ HI Hnz)
    as (s1 & its1 & Henf & HI1 & Hlen & Hf1).
  assert (lru_limit s1 ≠ 0) as Hnz1.
  { destruct (enforceLimit_Inv _ _ HI Hnz) as (s2 & ? & Henf2 & _ & Hl2 & _).
    rewrite Henf in Henf2. injection Henf2 as <-. congruence. }
  destruct (add_after s s1 its1 k v Hk Henf HI1 Hnz1) as (s' & Hadd & HI' & Hc' & _).
  pose proof (inv_seg _ _ HI') as [Hhd _].
  exists s', (lru_fresh s1), (mkNode k v (first_loc its1 None) None).
  split_and!; try done.
  - by apply (plain_reachable_step s (Put k v)).
  - by rewrite (inv_head _ _ HI').
  - by rewrite Hc', lookup_insert_eq.
  - rewrite (inv_size _ _ HI'), (inv_size _ _ HI). simpl length. lia.
Qed.

(** ** Witnesses *)

(** The text of a JSON array starts with a bracket, so it names no member
    of [Object.prototype]. *)
Lemma JSON_stringify_plain (a : list value) : inherited (JSON_stringify a) = false.
Proof.
  apply bool_decide_eq_false. unfold JSON_stringify, Object_prototype_names.
  simpl. intros Hin.
  repeat (apply elem_of_cons in Hin as [Heq|Hin]; [discriminate Heq|]).
  by apply elem_of_nil in Hin.
Qed.

Lemma size_counts_chain_witness :
  ∃ s, plain_reachable s
       ∧ lru_size s = 2
       ∧ lru_size s = Z.of_nat (length (chain s))
       ∧ (lru_head s = None ↔ lru_size s = 0)
       ∧ (lru_tail s = None ↔ lru_size s = 0).
Proof.
  assert (∃ s, run_from (Some 3) [Put "a" (VNum 1); Put "b" (VNum 2)] = Ok s)
    as [s Hs] by (eexists; vm_compute; reflexivity).
  assert (plain_reachable s) as Hr by (eexists _, _; split; [|exact Hs]; reflexivity).
  exists s. split; [exact Hr|]. split.
  - vm_compute in Hs. injection Hs as <-. reflexivity.
  - exact (size_counts_chain s Hr).
Defined.

Lemma chain_back_reverse_witness :
  ∃ s, plain_reachable s ∧ chain_keys s = ["b"; "a"]
       ∧ chain_back s = reverse (chain s).
Proof.
  assert (∃ s, run_from (Some 3) [Put "a" (VNum 1); Put "b" (VNum 2)] = Ok s)
    as [s Hs] by (eexists; vm_compute; reflexivity).
  assert (plain_reachable s) as Hr by (eexists _, _; split; [|exact Hs]; reflexivity).
  exists s. split; [exact Hr|]. split.
  - vm_compute in Hs. injection Hs as <-. reflexivity.
  - exact (chain_back_reverse s Hr).
Defined.

Lemma cache_entry_on_chain_witness :
  ∃ s, plain_reachable s ∧ lru_cache s !! "a" = Some 0%nat
       ∧ ∃ n, lru_heap s !! 0%nat = Some n ∧ node_key n = "a" ∧ n ∈ chain s.
Proof.
  assert (∃ s, run_from (Some 3) [Put "a" (VNum 1); Put "b" (VNum 2)] = Ok s)
    as [s Hs] by (eexists; vm_compute; reflexivity).
  assert (plain_reachable s) as Hr by (eexists _, _; split; [|exact Hs]; reflexivity).
  assert (lru_cache s !! "a" = Some 0%nat) as Hc.
  { vm_compute in Hs. injection Hs as <-. reflexivity. }
  exists s. split; [exact Hr|]. split; [exact Hc|].
  exact (cache_entry_on_chain s "a" 0%nat Hr Hc).
Defined.

Lemma limit_is_immutable_witness :
  ∃ s, run_from (Some 5) [Put "a" (VNum 1); Get "a"; Remove "a"] = Ok s
       ∧ lru_limit s = default 3 (Some 5).
Proof.
  assert (∃ s, run_from (Some 5) [Put "a" (VNum 1); Get "a"; Remove "a"] = Ok s)
    as [s Hs] by (eexists; vm_compute; reflexivity).
  exists s. split; [exact Hs|]. exact (limit_is_immutable _ _ s Hs).
Defined.

Lemma add_without_eviction_witness :
  ∃ s, plain_reachable s ∧ inherited "a" = false ∧ lru_limit s ≠ lru_size s
       ∧ ∃ s', add "a" (VNum 2) s = Ok (tt, s')
               ∧ chain_keys s' = "a" :: chain_keys s
               ∧ lru_size s' = lru_size s + 1
               ∧ is_Some (lru_cache s' !! "a")
               ∧ ∀ k', k' ≠ "a" → lru_cache s' !! k' = lru_cache s !! k'.
Proof.
  assert (∃ s, run_from (Some 3) [Put "a" (VNum 1)] = Ok s)
    as [s Hs] by (eexists; vm_compute; reflexivity).
  assert (plain_reachable s) as Hr by (eexists _, _; split; [|exact Hs]; reflexivity).
  assert (lru_limit s ≠ lru_size s) as Hne.
  { vm_compute in Hs. injection Hs as <-. by vm_compute. }
  exists s. split_and!; [exact Hr|reflexivity|exact Hne|].
  exact (add_without_eviction s "a" (VNum 2) Hr eq_refl Hne).
Defined.

Lemma negative_limit_never_evicts_witness :
  ∃ s, plain_reachable s ∧ inherited "b" = false ∧ lru_limit s < 0
       ∧ ∃ s', add "b" (VNum 2) s = Ok (tt, s')
               ∧ lru_size s' = lru_size s + 1
               ∧ lru_limit s' = lru_limit s
               ∧ lru_limit s' < lru_size s'.
Proof.
  assert (∃ s, run_from (Some (-1)) [Put "a" (VNum 1)] = Ok s)
    as [s Hs] by (eexists; vm_compute; reflexivity).
  assert (plain_reachable s) as Hr by (eexists _, _; split; [|exact Hs]; reflexivity).
  assert (lru_limit s < 0) as Hneg.
  { vm_compute in Hs. injection Hs as <-. reflexivity. }
  exists s. split_and!; [exact Hr|reflexivity|exact Hneg|].
  exact (negative_limit_never_evicts s "b" (VNum 2) Hr eq_refl Hneg).
Defined.

Lemma zero_limit_add_throws_witness :
  ∃ s, plain_reachable s ∧ lru_limit s = 0
       ∧ add "a" (VNum 1) s = TypeError ∧ lru_size s = 0
       ∧ lru_cache s !! "a" = None.
Proof.
  assert (∃ s, run_from (Some 0) [Get "a"; Remove "a"] = Ok s)
    as [s Hs] by (eexists; vm_compute; reflexivity).
  assert (plain_reachable s) as Hr by (eexists _, _; split; [|exact Hs]; reflexivity).
  assert (lru_limit s = 0) as Hz.
  { vm_compute in Hs. injection Hs as <-. reflexivity. }
  exists s. split; [exact Hr|]. split; [exact Hz|].
  exact (zero_limit_add_throws s "a" (VNum 1) Hr Hz).
Defined.

Lemma add_then_read_witness :
  ∃ s, plain_reachable s ∧ inherited "a" = false ∧ lru_limit s ≠ 0
       ∧ ∃ s' s'', add "a" (VNum 7) s = Ok (tt, s')
                   ∧ read "a" s' = Ok (VNum 7, s'').
Proof.
  assert (∃ s, run_from (Some 2) [Put "a" (VNum 1); Put "b" (VNum 2)] = Ok s)
    as [s Hs] by (eexists; vm_compute; reflexivity).
  assert (plain_reachable s) as Hr by (eexists _, _; split; [|exact Hs]; reflexivity).
  assert (lru_limit s ≠ 0) as Hnz.
  { vm_compute in Hs. injection Hs as <-. by vm_compute. }
  exists s. split_and!; [exact Hr|reflexivity|exact Hnz|].
  exact (add_then_read s "a" (VNum 7) Hr eq_refl Hnz).
Defined.

Lemma remove_present_witness :
  ∃ s, plain_reachable s ∧ lru_cache s !! "a" = Some 0%nat
       ∧ ∃ s' ks1 ks2,
           remove "a" s = Ok (tt, s')
           ∧ chain_keys s = ks1 ++ "a" :: ks2
           ∧ chain_keys s' = ks1 ++ ks2
           ∧ lru_cache s' = delete "a" (lru_cache s)
           ∧ lru_size s' = lru_size s - 1
           ∧ read "a" s' = Ok (VNull, s').
Proof.
  assert (∃ s, run_from (Some 3) [Put "a" (VNum 1); Put "b" (VNum 2)] = Ok s)
    as [s Hs] by (eexists; vm_compute; reflexivity).
  assert (plain_reachable s) as Hr by (eexists _, _; split; [|exact Hs]; reflexivity).
  assert (lru_cache s !! "a" = Some 0%nat) as Hc.
  { vm_compute in Hs. injection Hs as <-. reflexivity. }
  exists s. split; [exact Hr|]. split; [exact Hc|].
  exact (remove_present s "a" 0%nat Hr Hc).
Defined.

Lemma remove_twice_witness :
  ∃ s, plain_reachable s ∧ inherited "a" = false
       ∧ ∃ s', remove "a" s = Ok (tt, s') ∧ remove "a" s' = Ok (tt, s').
Proof.
  assert (∃ s, run_from (Some 3) [Put "a" (VNum 1); Put "b" (VNum 2)] = Ok s)
    as [s Hs] by (eexists; vm_compute; reflexivity).
  assert (plain_reachable s) as Hr by (eexists _, _; split; [|exact Hs]; reflexivity).
  exists s. split_and!; [exact Hr|reflexivity|].
  exact (remove_twice s "a" Hr eq_refl).
Defined.

Lemma contentsArray_chain_witness :
  ∃ s, plain_reachable s ∧ lru_size s ≠ 0
       ∧ contentsArray s = Ok (node_value <$> chain s, s).
Proof.
  assert (∃ s, run_from (Some 3) [Put "a" (VNum 1); Put "b" (VNum 2)] = Ok s)
    as [s Hs] by (eexists; vm_compute; reflexivity).
  assert (plain_reachable s) as Hr by (eexists _, _; split; [|exact Hs]; reflexivity).
  assert (lru_size s ≠ 0) as Hnz.
  { vm_compute in Hs. injection Hs as <-. by vm_compute. }
  exists s. split; [exact Hr|]. split; [exact Hnz|].
  exact (contentsArray_chain s Hr Hnz).
Defined.

Lemma tidy_capacity_witness :
  ∃ s, tidy s ∧ lru_size s = 2 ∧ 0 ≤ lru_size s ≤ lru_limit s.
Proof.
  assert (∃ s, run [Put "a" (VNum 1); Put "b" (VNum 2); Put "c" (VNum 3)]
                 (mkLRU ∅ 0%nat 0 2 None None ∅ None) = Ok (tt, s))
    as [s Hs] by (eexists; vm_compute; reflexivity).
  assert (tidy s) as Ht.
  { eexists (Some 2), _, _. split_and!; [done| |reflexivity| |exact Hs];
      vm_compute; reflexivity. }
  exists s. split; [exact Ht|]. split.
  - vm_compute in Hs. injection Hs as <-. reflexivity.
  - exact (tidy_capacity s Ht).
Defined.

Lemma tidy_index_witness :
  ∃ s, tidy s ∧ chain_keys s = ["c"; "b"]
       ∧ NoDup (chain_keys s)
       ∧ (∀ k, is_Some (lru_cache s !! k) ↔ k ∈ chain_keys s)
       ∧ Z.of_nat (size (lru_cache s)) = lru_size s.
Proof.
  assert (∃ s, run [Put "a" (VNum 1); Put "b" (VNum 2); Put "c" (VNum 3)]
                 (mkLRU ∅ 0%nat 0 2 None None ∅ None) = Ok (tt, s))
    as [s Hs] by (eexists; vm_compute; reflexivity).
  assert (tidy s) as Ht.
  { eexists (Some 2), _, _. split_and!; [done| |reflexivity| |exact Hs];
      vm_compute; reflexivity. }
  exists s. split; [exact Ht|]. split.
  - vm_compute in Hs. injection Hs as <-. reflexivity.
  - exact (tidy_index s Ht).
Defined.

Lemma tidy_add_at_capacity_witness :
  ∃ s, tidy s ∧ inherited "c" = false
       ∧ lru_size s = lru_limit s ∧ lru_cache s !! "c" = None
       ∧ ∃ s' ks kt,
           add "c" (VNum 3) s = Ok (tt, s')
           ∧ tidy s'
           ∧ chain_keys s = ks ++ [kt]
           ∧ chain_keys s' = "c" :: ks
           ∧ lru_cache s' !! kt = None
           ∧ is_Some (lru_cache s' !! "c")
           ∧ (∀ k', k' ≠ "c" → k' ≠ kt →
                    lru_cache s' !! k' = lru_cache s !! k')
           ∧ lru_size s' = lru_limit s'.
Proof.
  assert (∃ s, run [Put "a" (VNum 1); Put "b" (VNum 2)]
                 (mkLRU ∅ 0%nat 0 2 None None ∅ None) = Ok (tt, s))
    as [s Hs] by (eexists; vm_compute; reflexivity).
  assert (tidy s) as Ht.
  { eexists (Some 2), _, _. split_and!; [done| |reflexivity| |exact Hs];
      vm_compute; reflexivity. }
  assert (lru_size s = lru_limit s) as Hfull.
  { vm_compute in Hs. injection Hs as <-. reflexivity. }
  assert (lru_cache s !! "c" = None) as Hc.
  { vm_compute in Hs. injection Hs as <-. reflexivity. }
  exists s. split_and!; [exact Ht|reflexivity|exact Hfull|exact Hc|].
  exact (tidy_add_at_capacity s "c" (VNum 3) Ht eq_refl Hfull Hc).
Defined.

Lemma tidy_read_order_witness :
  ∃ s, tidy s ∧ is_Some (lru_cache s !! "a")
       ∧ ∃ v s',
           read "a" s = Ok (v, s')
           ∧ tidy s'
           ∧ chain_keys s' = "a" :: filter (λ x, x ≠ "a") (chain_keys s)
           ∧ (∀ k', is_Some (lru_cache s' !! k') ↔ is_Some (lru_cache s !! k'))
           ∧ lru_size s' = lru_size s.
Proof.
  assert (∃ s, run [Put "a" (VNum 1); Put "b" (VNum 2)]
                 (mkLRU ∅ 0%nat 0 2 None None ∅ None) = Ok (tt, s))
    as [s Hs] by (eexists; vm_compute; reflexivity).
  assert (tidy s) as Ht.
  { eexists (Some 2), _, _. split_and!; [done| |reflexivity| |exact Hs];
      vm_compute; reflexivity. }
  assert (is_Some (lru_cache s !! "a")) as Hc.
  { vm_compute in Hs. injection Hs as <-. vm_compute. eauto. }
  exists s. split_and!; [exact Ht|exact Hc|].
  exact (tidy_read_order s "a" Ht Hc).
Defined.

Lemma memoized_call_total_witness :
  ∃ st, (∀ a, inherited (JSON_stringify a) = false)
        ∧ memo_reachable JSON_stringify (λ _, VNum 3) st
        ∧ ∃ v st',
            memoized_call JSON_stringify (λ _, VNum 3) [VNum 1; VNum 2] st
            = Ok (v, st')
            ∧ memo_reachable JSON_stringify (λ _, VNum 3) st'
            ∧ (calls st' = calls st ∨ calls st' = S (calls st))
            ∧ (∃ a, JSON_stringify a = JSON_stringify [VNum 1; VNum 2]
                    ∧ v = VNum 3)
            ∧ lru_limit (memo st') = lru_limit (memo st).
Proof.
  assert (∃ st, memoized_calls JSON_stringify (λ _, VNum 3) [[VNum 2; VNum 1]]
                  (mkMemoized (mkLRU ∅ 0%nat 0 3 None None ∅ None) 0) = Ok st)
    as [st Hst] by (eexists; vm_compute; reflexivity).
  assert (memo_reachable JSON_stringify (λ _, VNum 3) st) as Hr.
  { eexists _, _. split; [reflexivity|exact Hst]. }
  exists st. split_and!; [exact JSON_stringify_plain|exact Hr|].
  exact (memoized_call_total JSON_stringify (λ _, VNum 3) [VNum 1; VNum 2] st
           JSON_stringify_plain Hr).
Defined.

Lemma memoized_call_value_witness :
  ∃ st, (∀ a, inherited (JSON_stringify a) = false)
        ∧ memo_reachable JSON_stringify (λ _, VNum 3) st
        ∧ (∀ a : list value,
             JSON_stringify a = JSON_stringify [VNum 1; VNum 2] →
             VNum 3 = VNum 3)
        ∧ ∃ st', memoized_call JSON_stringify (λ _, VNum 3) [VNum 1; VNum 2] st
                 = Ok (VNum 3, st').
Proof.
  assert (∃ st, memoized_calls JSON_stringify (λ _, VNum 3) [[VNum 2; VNum 1]]
                  (mkMemoized (mkLRU ∅ 0%nat 0 3 None None ∅ None) 0) = Ok st)
    as [st Hst] by (eexists; vm_compute; reflexivity).
  assert (memo_reachable JSON_stringify (λ _, VNum 3) st) as Hr.
  { eexists _, _. split; [reflexivity|exact Hst]. }
  exists st. split_and!; [exact JSON_stringify_plain|exact Hr|reflexivity|].
  exact (memoized_call_value JSON_stringify (λ _, VNum 3) [VNum 1; VNum 2] st
           JSON_stringify_plain Hr (λ _ _, eq_refl)).
Defined.

Lemma memoized_hit_truthy_witness :
  ∃ st l n, (∀ a, inherited (JSON_stringify a) = false)
    ∧ memo_reachable JSON_stringify (λ _, VNum 3) st
    ∧ lru_cache (memo st) !! JSON_stringify [VNum 1; VNum 2] = Some l
    ∧ lru_heap (memo st) !! l = Some n
    ∧ truthy (node_value n) = true
    ∧ ∃ st', memoized_call JSON_stringify (λ _, VNum 3) [VNum 1; VNum 2] st
             = Ok (node_value n, st')
             ∧ calls st' = calls st.
Proof.
  assert (∃ st, memoized_calls JSON_stringify (λ _, VNum 3) [[VNum 1; VNum 2]]
                  (mkMemoized (mkLRU ∅ 0%nat 0 3 None None ∅ None) 0) = Ok st)
    as [st Hst] by (eexists; vm_compute; reflexivity).
  assert (memo_reachable JSON_stringify (λ _, VNum 3) st) as Hr.
  { eexists _, _. split; [reflexivity|exact Hst]. }
  assert (lru_cache (memo st) !! JSON_stringify [VNum 1; VNum 2] = Some 0%nat) as Hc.
  { vm_compute in Hst. injection Hst as <-. reflexivity. }
  assert (lru_heap (memo st) !! 0%nat = Some (mkNode "[1,2]" (VNum 3) None None)) as Hn.
  { vm_compute in Hst. injection Hst as <-. reflexivity. }
  exists st, 0%nat, (mkNode "[1,2]" (VNum 3) None None).
  split_and!; [exact JSON_stringify_plain|exact Hr|exact Hc|exact Hn|reflexivity|].
  exact (memoized_hit_truthy JSON_stringify (λ _, VNum 3) [VNum 1; VNum 2] st
           0%nat _ JSON_stringify_plain Hr Hc Hn eq_refl).
Defined.

Lemma memoized_hit_falsy_witness :
  ∃ st l n, (∀ a, inherited (JSON_stringify a) = false)
    ∧ memo_reachable JSON_stringify (λ _, VNum 0) st
    ∧ lru_cache (memo st) !! JSON_stringify [VNum 1; VNum 2] = Some l
    ∧ lru_heap (memo st) !! l = Some n
    ∧ truthy (node_value n) = false
    ∧ ∃ st', memoized_call JSON_stringify (λ _, VNum 0) [VNum 1; VNum 2] st
             = Ok (VNum 0, st')
             ∧ calls st' = S (calls st).
Proof.
  assert (∃ st, memoized_calls JSON_stringify (λ _, VNum 0) [[VNum 1; VNum 2]]
                  (mkMemoized (mkLRU ∅ 0%nat 0 3 None None ∅ None) 0) = Ok st)
    as [st Hst] by (eexists; vm_compute; reflexivity).
  assert (memo_reachable JSON_stringify (λ _, VNum 0) st) as Hr.
  { eexists _, _. split; [reflexivity|exact Hst]. }
  assert (lru_cache (memo st) !! JSON_stringify [VNum 1; VNum 2] = Some 0%nat) as Hc.
  { vm_compute in Hst. injection Hst as <-. reflexivity. }
  assert (lru_heap (memo st) !! 0%nat = Some (mkNode "[1,2]" (VNum 0) None None)) as Hn.
  { vm_compute in Hst. injection Hst as <-. reflexivity. }
  exists st, 0%nat, (mkNode "[1,2]" (VNum 0) None None).
  split_and!; [exact JSON_stringify_plain|exact Hr|exact Hc|exact Hn|reflexivity|].
  exact (memoized_hit_falsy JSON_stringify (λ _, VNum 0) [VNum 1; VNum 2] st
           0%nat _ JSON_stringify_plain Hr Hc Hn eq_refl).
Defined.

Lemma memoized_call_twice_witness :
  ∃ st, (∀ a, inherited (JSON_stringify a) = false)
        ∧ memo_reachable JSON_stringify (λ _, VNum 3) st
    ∧ (∀ a : list value,
         JSON_stringify a = JSON_stringify [VNum 1; VNum 2] → VNum 3 = VNum 3)
    ∧ truthy (VNum 3) = true
    ∧ ∃ st1 st2,
        memoized_call JSON_stringify (λ _, VNum 3) [VNum 1; VNum 2] st
        = Ok (VNum 3, st1)
        ∧ memoized_call JSON_stringify (λ _, VNum 3) [VNum 1; VNum 2] st1
          = Ok (VNum 3, st2)
        ∧ calls st2 = calls st1.
Proof.
  assert (∃ st, memoized_calls JSON_stringify (λ _, VNum 3) [[VNum 2; VNum 1]]
                  (mkMemoized (mkLRU ∅ 0%nat 0 3 None None ∅ None) 0) = Ok st)
    as [st Hst] by (eexists; vm_compute; reflexivity).
  assert (memo_reachable JSON_stringify (λ _, VNum 3) st) as Hr.
  { eexists _, _. split; [reflexivity|exact Hst]. }
  exists st. split_and!; [exact JSON_stringify_plain|exact Hr|reflexivity|reflexivity|].
  exact (memoized_call_twice JSON_stringify (λ _, VNum 3) [VNum 1; VNum 2] st
           JSON_stringify_plain Hr (λ _ _, eq_refl) eq_refl).
Defined.

Lemma add_puts_at_head_witness :
  ∃ s, plain_reachable s ∧ inherited "a" = false ∧ lru_limit s ≠ 0
       ∧ ∃ s' hd n,
           add "a" (VNum 7) s = Ok (tt, s')
           ∧ plain_reachable s'
           ∧ lru_head s' = Some hd
           ∧ lru_cache s' !! "a" = Some hd
           ∧ lru_heap s' !! hd = Some n
           ∧ node_key n = "a" ∧ node_value n = VNum 7 ∧ node_prev n = None
           ∧ (lru_size s' = lru_size s + 1 ∨ lru_size s' = lru_size s).
Proof.
  assert (∃ s, run_from (Some 2) [Put "a" (VNum 1); Put "b" (VNum 2)] = Ok s)
    as [s Hs] by (eexists; vm_compute; reflexivity).
  assert (plain_reachable s) as Hr by (eexists _, _; split; [|exact Hs]; reflexivity).
  assert (lru_limit s ≠ 0) as Hnz.
  { vm_compute in Hs. injection Hs as <-. by vm_compute. }
  exists s. split_and!; [exact Hr|reflexivity|exact Hnz|].
  exact (add_puts_at_head s "a" (VNum 7) Hr eq_refl Hnz).
Defined.
